(** * The image listing of [docker images] (api/client/images.go, CmdImages)

    A shallow embedding of [CmdImages] from the point where the image
    records have been fetched: the dangling-image collapse, the combination
    of the tag and digest slices with Go's [append], the per-reference
    parsing and the rendering of the rows into a [text/tabwriter] writer
    over the user-visible stream. *)

From Stdlib Require Import Ascii String List Arith Lia Bool ZArith.
Import ListNotations.
Open Scope string_scope.

(** Go [error] values, carried as their message. *)
Definition error := string.

Inductive result (A : Type) : Type :=
| Ok (a : A)
| Err (e : error).
Arguments Ok {A} a.
Arguments Err {A} e.

(** ** Strings *)

Definition tab : string := String "009"%char EmptyString.

Fixpoint has_tab (s : string) : bool :=
  match s with
  | EmptyString => false
  | String c s' => Ascii.eqb c "009"%char || has_tab s'
  end.

(** [strings.HasPrefix(s, p)] is [prefix p s]. *)
Definition HasPrefix (s p : string) : bool := String.prefix p s.

(** ** Go slices of strings

    A slice is a header (backing array, length, capacity); the backing
    arrays live in a store, so that two slice headers can share one array
    the way Go slices do.  All slices of [CmdImages] start at offset 0 of
    their array. *)
Module Slice.

Record slice := mkSlice { sarr : nat; slen : nat; scap : nat }.

Definition store := list (list string).

Definition backing (st : store) (s : slice) : list string := nth (sarr s) st [].

(** The elements [s[0:len(s)]]. *)
Definition elems (st : store) (s : slice) : list string :=
  firstn (slen s) (backing st s).

(** [[]string{}] *)
Definition empty : slice := mkSlice 0 0 0.

Fixpoint set_nth {A} (l : list A) (n : nat) (x : A) : list A :=
  match l, n with
  | [], _ => []
  | _ :: l', 0 => x :: l'
  | y :: l', S n' => y :: set_nth l' n' x
  end.

(** [copy(arr[i:], xs)] *)
Definition write_at (arr : list string) (i : nat) (xs : list string) : list string :=
  (firstn i arr ++ xs ++ skipn (i + length xs) arr)%list.

(** [append(s, xs...)]: in place when the capacity suffices, otherwise into
    a fresh array holding the old elements, [xs] and zero values up to the
    new capacity (the capacity of the fresh array, which [CmdImages] never
    observes, is taken as [max(needed, 2*cap)] without size-class
    rounding). *)
Definition append (st : store) (s : slice) (xs : list string) : store * slice :=
  let n := slen s + length xs in
  if Nat.leb n (scap s) then
    (set_nth st (sarr s) (write_at (backing st s) (slen s) xs),
     mkSlice (sarr s) n (scap s))
  else
    let c := Nat.max n (scap s + scap s) in
    ((st ++ [elems st s ++ xs ++ repeat "" (c - n)])%list, mkSlice (length st) n c).

End Slice.
Import Slice.

(** ** The tabwriter over the user-visible stream

    [text/tabwriter] buffers the text written to it and hands it to the
    underlying stream on [Flush]; besides, when a written line has a single
    cell (no tab), the whole buffer is flushed at once ([Writer.Write]: a
    line of one cell does not affect the column widths).  Lines are kept as
    written; the padding added to align columns is not modelled. *)
Module TabWriter.

Record writer := mkWriter { buf : list string; out : list string }.

Definition Flush (w : writer) : writer := mkWriter [] (out w ++ buf w)%list.

(** [fmt.Fprint*(w, line ++ "\n")] *)
Definition Write (w : writer) (line : string) : writer :=
  let w' := mkWriter (buf w ++ [line])%list (out w) in
  if has_tab line then w' else Flush w'.

(** Every line written so far, flushed or not. *)
Definition written (w : writer) : list string := (out w ++ buf w)%list.

End TabWriter.
Import TabWriter.

(** ** Image records and parsed references *)

Record Image := mkImage {
  ID : string;
  RepoTags : slice;
  RepoDigests : slice;
  Created : Z;
  Size : Z
}.

(** A [reference.Named]: its name, and [Some] value when it implements
    [reference.Tagged] (resp. [reference.Digested]). *)
Record Named := mkNamed {
  Name : string;
  Tag : option string;
  Digest : option string
}.

(** ** The state and error monad of [CmdImages] *)

Record state := mkState { heap : store; tw : writer }.

Definition M (A : Type) := state -> result A * state.

Definition ret {A} (a : A) : M A := fun s => (Ok a, s).

Definition bind {A B} (m : M A) (k : A -> M B) : M B :=
  fun s => match m s with
           | (Ok a, s') => k a s'
           | (Err e, s') => (Err e, s')
           end.

Notation "x <- m ;; k" := (bind m (fun x => k))
  (at level 61, m at next level, right associativity).
Notation "m ;; k" := (bind m (fun _ => k))
  (at level 61, right associativity).

Definition raise {A} (e : error) : M A := fun s => (Err e, s).

Definition lift {A} (r : result A) : M A :=
  match r with Ok a => ret a | Err e => raise e end.

Definition get_heap : M store := fun s => (Ok (heap s), s).

Definition append_m (sl : slice) (xs : list string) : M slice :=
  fun s => let '(st', sl') := append (heap s) sl xs in
           (Ok sl', mkState st' (tw s)).

Definition Fprintln (line : string) : M unit :=
  fun s => (Ok tt, mkState (heap s) (Write (tw s) line)).

Definition Flush_m : M unit :=
  fun s => (Ok tt, mkState (heap s) (Flush (tw s))).

(** ** [CmdImages] *)

Definition none : string := "<none>".

Definition triple := (string * string * string)%type.

Definition header (showDigests : bool) : string :=
  if showDigests then "REPOSITORY" ++ tab ++ "TAG" ++ tab ++ "DIGEST" ++ tab
                      ++ "IMAGE ID" ++ tab ++ "CREATED" ++ tab ++ "SIZE"
  else "REPOSITORY" ++ tab ++ "TAG" ++ tab ++ "IMAGE ID" ++ tab
       ++ "CREATED" ++ tab ++ "SIZE".

(** Modelled from the spec: [stringid.TruncateID] (pkg/stringid, not part
    of the sources) shortens an id to a fixed-length prefix, its canonical
    short form. *)
Definition shortLen : nat := 12.
Definition TruncateID (id : string) : string := substring 0 shortLen id.

Section CmdImages.

(** [reference.ParseNamed] of docker/distribution. *)
Variable ParseNamed : string -> result Named.
(** [units.HumanDuration] and [units.HumanSize], on seconds and bytes. *)
Variable HumanDuration : Z -> string.
Variable HumanSize : Z -> string.
(** [time.Now().UTC()] in Unix seconds. *)
Variable Now : Z.

(** The body of the inner loop up to the row: default repo, tag and digest
    to none, then fill them in from the parsed reference. *)
Definition process_ref (repoAndRef : string) : result triple :=
  let repo := none in
  let tag := none in
  let digest := none in
  if negb (HasPrefix repoAndRef none) then
    match ParseNamed repoAndRef with
    | Err err => Err err
    | Ok ref =>
        let repo := Name ref in
        match Digest ref with
        | Some x => Ok (repo, tag, x)
        | None =>
            match Tag ref with
            | Some x => Ok (repo, x, digest)
            | None => Ok (repo, tag, digest)
            end
        end
    end
  else Ok (repo, tag, digest).

(** The line of one triple. *)
Definition row (quiet showDigests : bool) (id : string) (t : triple)
    (image : Image) : string :=
  let '(repo, tag, digest) := t in
  if negb quiet then
    if showDigests then
      repo ++ tab ++ tag ++ tab ++ digest ++ tab ++ id ++ tab
      ++ HumanDuration (Now - Created image) ++ " ago" ++ tab
      ++ HumanSize (Size image)
    else
      repo ++ tab ++ tag ++ tab ++ id ++ tab
      ++ HumanDuration (Now - Created image) ++ " ago" ++ tab
      ++ HumanSize (Size image)
  else id.

Fixpoint each_ref (quiet showDigests : bool) (id : string) (image : Image)
    (tagsAndDigests : list string) : M unit :=
  match tagsAndDigests with
  | [] => ret tt
  | repoAndRef :: rest =>
      t <- lift (process_ref repoAndRef) ;;
      Fprintln (row quiet showDigests id t image) ;;
      each_ref quiet showDigests id image rest
  end.

Definition is_dangling (st : store) (repoTags repoDigests : slice) : bool :=
  Nat.eqb (slen repoTags) 1
  && String.eqb (nth 0 (elems st repoTags) "") "<none>:<none>"
  && Nat.eqb (slen repoDigests) 1
  && String.eqb (nth 0 (elems st repoDigests) "") "<none>@<none>".

Definition display_id (noTrunc : bool) (id : string) : string :=
  if negb noTrunc then TruncateID id else id.

Definition each_image (quiet noTrunc showDigests : bool) (image : Image) : M unit :=
  let id := display_id noTrunc (ID image) in
  st <- get_heap ;;
  let repoTags := RepoTags image in
  let repoDigests :=
    if is_dangling st repoTags (RepoDigests image) then Slice.empty
    else RepoDigests image in
  tagsAndDigests <- append_m repoTags (elems st repoDigests) ;;
  st' <- get_heap ;;
  each_ref quiet showDigests id image (elems st' tagsAndDigests).

Fixpoint each_image_list (quiet noTrunc showDigests : bool) (images : list Image)
    : M unit :=
  match images with
  | [] => ret tt
  | image :: rest =>
      each_image quiet noTrunc showDigests image ;;
      each_image_list quiet noTrunc showDigests rest
  end.

(** From [images, err := cli.client.ImageList(options)] on. *)
Definition CmdImages (quiet noTrunc showDigests : bool)
    (listed : result (list Image)) : M unit :=
  match listed with
  | Err err => raise err
  | Ok images =>
      (if negb quiet then Fprintln (header showDigests) else ret tt) ;;
      each_image_list quiet noTrunc showDigests images ;;
      (if negb quiet then Flush_m else ret tt) ;;
      ret tt
  end.

(** The reference reconciler of the spec, read off [each_image]: the
    combined reference list of a record and its triples. *)
Definition combined (st : store) (image : Image) : store * list string :=
  let repoTags := RepoTags image in
  let repoDigests :=
    if is_dangling st repoTags (RepoDigests image) then Slice.empty
    else RepoDigests image in
  let '(st', s) := append st repoTags (elems st repoDigests) in
  (st', elems st' s).

Fixpoint triples (refs : list string) : result (list triple) :=
  match refs with
  | [] => Ok []
  | r :: rs =>
      match process_ref r with
      | Err e => Err e
      | Ok t => match triples rs with
                | Err e => Err e
                | Ok ts => Ok (t :: ts)
                end
      end
  end.

Definition reconcile (st : store) (image : Image) : result (list triple) :=
  triples (snd (combined st image)).

(** The triples that [each_ref] gets to render before it stops, and how
    it ends. *)
Fixpoint scan (refs : list string) : list triple * result unit :=
  match refs with
  | [] => ([], Ok tt)
  | r :: rs =>
      match process_ref r with
      | Err e => ([], Err e)
      | Ok t => let '(ts, res) := scan rs in (t :: ts, res)
      end
  end.

(** The outcome of the loop over the records: its result, the final store
    and the lines written, in order. *)
Fixpoint list_spec (quiet noTrunc showDigests : bool) (images : list Image)
    (st : store) : result unit * store * list string :=
  match images with
  | [] => (Ok tt, st, [])
  | image :: rest =>
      let '(st1, refs) := combined st image in
      let '(ts, res) := scan refs in
      let ls := map (fun t => row quiet showDigests
                                (display_id noTrunc (ID image)) t image) ts in
      match res with
      | Err e => (Err e, st1, ls)
      | Ok _ =>
          let '(r, st2, ls') := list_spec quiet noTrunc showDigests rest st1 in
          (r, st2, (ls ++ ls')%list)
      end
  end.

End CmdImages.

(** Writing a sequence of lines. *)
Definition writes (w : writer) (ls : list string) : writer := fold_left Write ls w.

(** Go slices that the program can receive: the length within the
    capacity, the capacity within the backing array. *)
Definition slice_wf (st : store) (s : slice) : Prop :=
  slen s <= scap s /\ scap s <= length (backing st s).

Definition all_slices (images : list Image) : list slice :=
  flat_map (fun img => [RepoTags img; RepoDigests img]) images.

(** The reconciled triples of each record, each against the same store. *)
Fixpoint reconcile_all (ParseNamed : string -> result Named) (st : store)
    (images : list Image) : result (list (list triple)) :=
  match images with
  | [] => Ok []
  | image :: rest =>
      match reconcile ParseNamed st image with
      | Err e => Err e
      | Ok ts => match reconcile_all ParseNamed st rest with
                 | Err e => Err e
                 | Ok tss => Ok (ts :: tss)
                 end
      end
  end.

Fixpoint count_tabs (s : string) : nat :=
  match s with
  | EmptyString => 0
  | String c s' => (if Ascii.eqb c "009"%char then 1 else 0) + count_tabs s'
  end.

(** ** From the flags to the listing (lines 29 to 60) *)

Section Front.

(** [filters.Args], [filters.NewArgs()] and [filters.ParseFlag]. *)
Variable Args : Type.
Variable NewArgs : Args.
Variable ParseFlag : string -> Args -> result Args.

Record ImageListOptions := mkImageListOptions {
  MatchName : string;
  All : bool;
  Filters : Args
}.

(** [cli.client.ImageList]. *)
Variable ImageList : ImageListOptions -> result (list Image).

Variable ParseNamed : string -> result Named.
Variable HumanDuration : Z -> string.
Variable HumanSize : Z -> string.
Variable Now : Z.

(** [for _, f := range flFilter.GetAll() { imageFilterArgs, err =
    filters.ParseFlag(f, imageFilterArgs); if err != nil { return err } }] *)
Fixpoint parse_filters (flags : list string) (imageFilterArgs : Args)
    : result Args :=
  match flags with
  | [] => Ok imageFilterArgs
  | f :: rest =>
      match ParseFlag f imageFilterArgs with
      | Err err => Err err
      | Ok imageFilterArgs' => parse_filters rest imageFilterArgs'
      end
  end.

(** [CmdImages] after [cmd.ParseFlags]: the values of [--filter] and the
    positional arguments. *)
Definition CmdImages_args (quiet all noTrunc showDigests : bool)
    (flFilter args : list string) : M unit :=
  match parse_filters flFilter NewArgs with
  | Err err => raise err
  | Ok imageFilterArgs =>
      let matchName := if Nat.eqb (length args) 1 then nth 0 args "" else "" in
      let options := mkImageListOptions matchName all imageFilterArgs in
      CmdImages ParseNamed HumanDuration HumanSize Now quiet noTrunc
        showDigests (ImageList options)
  end.

End Front.

(** The initial state: the store of the records' arrays and a fresh
    tabwriter over an empty stream. *)
Definition init (st : store) : state := mkState st (mkWriter [] []).

(** ** Concrete instances for the examples *)

Fixpoint split_at (c : ascii) (s : string) : string * option string :=
  match s with
  | EmptyString => (EmptyString, None)
  | String c' s' =>
      if Ascii.eqb c c' then (EmptyString, Some s')
      else let '(a, b) := split_at c s' in (String c' a, b)
  end.

(** A reference parser that splits [name[:tag][@digest]] and fails on an
    empty name; it agrees with [reference.ParseNamed] on the references of
    the examples below (lower-case names without a registry port, full
    sha256 digests, and [":latest"], which has no repository). *)
Definition sample_parse (s : string) : result Named :=
  let '(np, d) := split_at "@"%char s in
  let '(n, t) := split_at ":"%char np in
  if String.eqb n "" then Err "invalid reference format"
  else Ok (mkNamed n t d).

Definition sample_digest : string :=
  "sha256:e3b0c44298fc1c149afbf4c8996fb92427ae41e4649b934ca495991b7852b855".

Definition sample_duration (d : Z) : string :=
  if (d <? 7200)%Z then "About an hour" else "2 hours".
Definition sample_size (n : Z) : string := "1 MB".

Definition run (quiet noTrunc showDigests : bool) (st : store)
    (images : list Image) : result unit * state :=
  CmdImages sample_parse sample_duration sample_size 3600 quiet noTrunc
    showDigests (Ok images) (init st).

(** A store with a dangling image (arrays 0 and 1), a tagged and digested
    image whose tag slice has spare capacity (arrays 2 and 4) and a
    malformed reference (array 3). *)
Definition st0 : store :=
  [["<none>:<none>"]; ["<none>@<none>"];
   ["library/foo:latest"; ""]; [":latest"];
   [("library/foo@" ++ sample_digest)%string]].

Definition dangling_img : Image :=
  mkImage "sha256:0123456789abcdef0123" (mkSlice 0 1 1) (mkSlice 1 1 1) 0 10.
Definition foo_img : Image :=
  mkImage "sha256:fedcba9876543210fedc" (mkSlice 2 1 2) (mkSlice 4 1 1) 0 1048576.
Definition bad_img : Image :=
  mkImage "sha256:aaaaaaaaaaaaaaaaaaaa" (mkSlice 3 1 1) Slice.empty 0 5.

(** A filter-flag parser in the manner of [filters.ParseFlag]: [name=value]
    pairs added to a list, other flags refused. *)
Definition sample_parse_flag (f : string) (args : list (string * string))
  : result (list (string * string)) :=
  let '(k, v) := split_at "="%char f in
  match v with
  | None => Err "bad format of filter (expected name=value)"
  | Some v => Ok (args ++ [(k, v)])%list
  end.

Definition sample_image_list (opts : ImageListOptions (list (string * string)))
  : result (list Image) :=
  Ok [foo_img].

(** * Properties *)

(** ** The tabwriter *)

Lemma written_Write (w : writer) (l : string) :
  written (Write w l) = (written w ++ [l])%list.
Proof.
  unfold Write, written; destruct (has_tab l); simpl;
    rewrite ?app_nil_r, ?app_assoc; reflexivity.
Qed.

Lemma written_writes (w : writer) (ls : list string) :
  written (writes w ls) = (written w ++ ls)%list.
Proof.
  unfold writes; revert w; induction ls as [|l ls IH]; intro w; simpl.
  - now rewrite app_nil_r.
  - rewrite IH, written_Write, <- app_assoc; reflexivity.
Qed.

Lemma writes_app (w : writer) (l1 l2 : list string) :
  writes w (l1 ++ l2)%list = writes (writes w l1) l2.
Proof. unfold writes; apply fold_left_app. Qed.

(** Lines with a tab stay in the buffer. *)
Lemma writes_tabbed_out (w : writer) (ls : list string) :
  Forall (fun l => has_tab l = true) ls -> out (writes w ls) = out w.
Proof.
  intro H; unfold writes; revert w; induction H as [|l ls Hl _ IH]; intro w;
    simpl; [reflexivity|].
  rewrite IH; unfold Write; now rewrite Hl.
Qed.

(** Lines without a tab go straight through to the stream. *)
Lemma writes_untabbed (w : writer) (ls : list string) :
  buf w = [] -> Forall (fun l => has_tab l = false) ls ->
  buf (writes w ls) = [] /\ out (writes w ls) = (out w ++ ls)%list.
Proof.
  unfold writes; revert w; induction ls as [|l ls IH]; intros w Hb Hf; simpl.
  - now rewrite app_nil_r.
  - inversion Hf as [|? ? Hl Hls]; subst.
    assert (Hw : Write w l = mkWriter [] (out w ++ [l])%list).
    { unfold Write, Flush; rewrite Hl; simpl; now rewrite Hb. }
    rewrite Hw; destruct (IH (mkWriter [] (out w ++ [l])%list) eq_refl Hls)
      as [H1 H2]; split; [exact H1|].
    rewrite H2; simpl; now rewrite <- app_assoc.
Qed.

(** ** Strings *)

Lemma has_tab_app (a b : string) : has_tab (a ++ b) = has_tab a || has_tab b.
Proof.
  induction a as [|c a IH]; simpl; [reflexivity|].
  now rewrite IH, orb_assoc.
Qed.

Lemma has_tab_tab (a b : string) : has_tab (a ++ tab ++ b) = true.
Proof. rewrite has_tab_app; simpl; now rewrite orb_true_r. Qed.

Lemma has_tab_substring (n m : nat) (s : string) :
  has_tab s = false -> has_tab (substring n m s) = false.
Proof.
  revert n m; induction s as [|c s IH]; intros n m H; simpl.
  - destruct n, m; reflexivity.
  - simpl in H; apply orb_false_iff in H as [Hc Hs].
    destruct n as [|n].
    + destruct m as [|m]; simpl; [reflexivity|].
      rewrite Hc; simpl; apply IH; exact Hs.
    + apply IH; exact Hs.
Qed.

Lemma has_tab_display_id (noTrunc : bool) (id : string) :
  has_tab id = false -> has_tab (display_id noTrunc id) = false.
Proof.
  intro H; unfold display_id; destruct noTrunc; simpl;
    [exact H | now apply has_tab_substring].
Qed.

(** ** The loops of [CmdImages] as functions of the input *)

Section Loops.

Variable ParseNamed : string -> result Named.
Variable HumanDuration : Z -> string.
Variable HumanSize : Z -> string.
Variable Now : Z.

Let row' := row HumanDuration HumanSize Now.
Let scan' := scan ParseNamed.

Lemma each_ref_scan (quiet showDigests : bool) (id : string) (image : Image)
    (refs : list string) (st : store) (w : writer) :
  each_ref ParseNamed HumanDuration HumanSize Now quiet showDigests id image
    refs (mkState st w) =
  (snd (scan' refs),
   mkState st (writes w (map (fun t => row' quiet showDigests id t image)
                             (fst (scan' refs))))).
Proof.
  revert w; induction refs as [|r rs IH]; intro w; [reflexivity|].
  simpl; unfold scan'; simpl.
  unfold bind at 1, lift.
  destruct (process_ref ParseNamed r) as [t|e]; [|reflexivity].
  simpl; unfold bind, Fprintln; simpl.
  fold (bind (B := unit)
          (each_ref ParseNamed HumanDuration HumanSize Now quiet showDigests
             id image rs)).
  rewrite IH; unfold scan'; destruct (scan ParseNamed rs); reflexivity.
Qed.

Lemma each_image_spec (quiet noTrunc showDigests : bool) (image : Image)
    (st : store) (w : writer) :
  each_image ParseNamed HumanDuration HumanSize Now quiet noTrunc showDigests
    image (mkState st w) =
  let '(st1, refs) := combined st image in
  (snd (scan' refs),
   mkState st1
     (writes w (map (fun t => row' quiet showDigests
                                (display_id noTrunc (ID image)) t image)
                    (fst (scan' refs))))).
Proof.
  unfold each_image, combined, bind, get_heap, append_m; simpl.
  destruct (append st (RepoTags image) _) as [st1 s]; simpl.
  apply each_ref_scan.
Qed.

Lemma each_image_list_spec (quiet noTrunc showDigests : bool)
    (images : list Image) (st : store) (w : writer) :
  each_image_list ParseNamed HumanDuration HumanSize Now quiet noTrunc
    showDigests images (mkState st w) =
  let '(r, st', ls) := list_spec ParseNamed HumanDuration HumanSize Now quiet
                         noTrunc showDigests images st in
  (r, mkState st' (writes w ls)).
Proof.
  revert st w; induction images as [|image rest IH]; intros st w;
    [reflexivity|].
  simpl; unfold bind at 1; rewrite each_image_spec.
  destruct (combined st image) as [st1 refs].
  unfold scan'; destruct (scan ParseNamed refs) as [ts [u|e]]; simpl;
    [|reflexivity].
  rewrite IH.
  destruct (list_spec _ _ _ _ _ _ _ rest st1) as [[r st2] ls'].
  now rewrite writes_app.
Qed.

Lemma CmdImages_spec (quiet noTrunc showDigests : bool) (images : list Image)
    (st : store) (w : writer) :
  CmdImages ParseNamed HumanDuration HumanSize Now quiet noTrunc showDigests
    (Ok images) (mkState st w) =
  let '(r, st', ls) := list_spec ParseNamed HumanDuration HumanSize Now quiet
                         noTrunc showDigests images st in
  let w1 := writes w ((if quiet then [] else [header showDigests]) ++ ls)%list in
  (r, mkState st' (match r with
                   | Ok _ => if quiet then w1 else Flush w1
                   | Err _ => w1
                   end)).
Proof.
  unfold CmdImages, bind, ret, Fprintln, Flush_m.
  destruct quiet; simpl; rewrite each_image_list_spec;
    destruct (list_spec _ _ _ _ _ _ _ images st) as [[[[]|e] st'] ls];
    reflexivity.
Qed.

End Loops.

(** ** Slices and [append] *)

Section Slices.

Lemma nth_set_nth_same {A} (l : list A) (n : nat) (x d : A) :
  n < length l -> nth n (set_nth l n x) d = x.
Proof.
  revert n; induction l as [|y l IH]; intros [|n] H; simpl in *;
    [lia|lia|reflexivity|apply IH; lia].
Qed.

Lemma nth_set_nth_other {A} (l : list A) (n m : nat) (x d : A) :
  m <> n -> nth m (set_nth l n x) d = nth m l d.
Proof.
  revert n m; induction l as [|y l IH]; intros [|n] [|m] H; simpl;
    try reflexivity; try lia.
  apply IH; lia.
Qed.

Lemma length_set_nth {A} (l : list A) (n : nat) (x : A) :
  length (set_nth l n x) = length l.
Proof.
  revert n; induction l as [|y l IH]; intros [|n]; simpl; auto.
Qed.

Lemma set_nth_nth {A} (l : list A) (n : nat) (d : A) :
  set_nth l n (nth n l d) = l.
Proof.
  revert n; induction l as [|y l IH]; intros [|n]; simpl; auto.
  now rewrite IH.
Qed.

Lemma write_at_nil (arr : list string) (i : nat) : write_at arr i [] = arr.
Proof. unfold write_at; simpl; rewrite Nat.add_0_r; apply firstn_skipn. Qed.

Lemma length_write_at (arr : list string) (i : nat) (xs : list string) :
  i + length xs <= length arr -> length (write_at arr i xs) = length arr.
Proof.
  intro H; unfold write_at; rewrite !length_app, length_firstn, length_skipn.
  lia.
Qed.

Lemma firstn_write_at (arr : list string) (i : nat) (xs : list string) :
  i <= length arr -> firstn i (write_at arr i xs) = firstn i arr.
Proof.
  intro H; unfold write_at.
  rewrite firstn_app, length_firstn, Nat.min_l by exact H.
  rewrite Nat.sub_diag; simpl; rewrite app_nil_r.
  rewrite firstn_firstn, Nat.min_id; reflexivity.
Qed.

Lemma firstn_write_at_xs (arr : list string) (i : nat) (xs : list string) :
  i <= length arr ->
  firstn (i + length xs) (write_at arr i xs) = (firstn i arr ++ xs)%list.
Proof.
  intro H; unfold write_at.
  rewrite firstn_app, length_firstn, Nat.min_l by exact H.
  replace (i + length xs - i) with (length xs) by lia.
  rewrite firstn_firstn, Nat.min_r by lia.
  rewrite firstn_app, Nat.sub_diag, firstn_all; simpl.
  now rewrite app_nil_r.
Qed.

Lemma nth_nonempty {A} (l : list (list A)) (n : nat) :
  0 < length (nth n l []) -> n < length l.
Proof.
  intro H; destruct (Nat.lt_ge_cases n (length l)) as [Hl|Hl]; [exact Hl|].
  rewrite nth_overflow in H by exact Hl; simpl in H; lia.
Qed.

Lemma length_elems (st : store) (s : slice) :
  slice_wf st s -> length (elems st s) = slen s.
Proof.
  intros [H1 H2]; unfold elems; rewrite length_firstn; lia.
Qed.

(** A slice of capacity 0 shows no element, whatever the store. *)
Lemma cap0_frame (st st' : store) (s : slice) :
  scap s = 0 -> slice_wf st s -> elems st' s = elems st s /\ slice_wf st' s.
Proof.
  intros H0 [H1 H2]; unfold elems, slice_wf.
  replace (slen s) with 0 by lia; simpl; split; [reflexivity | lia].
Qed.

(** [append] yields the old elements followed by the new ones. *)
Lemma append_elems (st : store) (s : slice) (xs : list string) :
  slice_wf st s ->
  elems (fst (append st s xs)) (snd (append st s xs)) = (elems st s ++ xs)%list.
Proof.
  intros [H1 H2]; unfold append.
  destruct (Nat.leb (slen s + length xs) (scap s)) eqn:E; simpl.
  - apply Nat.leb_le in E.
    unfold elems, backing; simpl.
    destruct (Nat.eq_dec (scap s) 0) as [H0|H0].
    + assert (slen s = 0) as Hl by lia.
      destruct xs; simpl in E; [|lia].
      rewrite Hl; reflexivity.
    + rewrite nth_set_nth_same
        by (apply nth_nonempty; unfold backing in H2; lia).
      apply firstn_write_at_xs; unfold backing in H2; lia.
  - unfold elems at 1, backing; simpl.
    rewrite nth_middle.
    rewrite firstn_app, length_elems by (split; assumption).
    rewrite (firstn_all2 (elems st s))
      by (rewrite length_elems by (split; assumption); lia).
    replace (slen s + length xs - slen s) with (length xs) by lia.
    rewrite firstn_app, Nat.sub_diag, firstn_all; simpl.
    now rewrite !app_nil_r.
Qed.

(** [append] on [s0] leaves the elements of a slice alone when the slice is
    [s0] itself or lives in another array. *)
Lemma append_frame (st : store) (s0 s : slice) (xs : list string) :
  slice_wf st s0 -> slice_wf st s ->
  (s = s0 \/ scap s = 0 \/ scap s0 = 0 \/ sarr s <> sarr s0) ->
  elems (fst (append st s0 xs)) s = elems st s
  /\ slice_wf (fst (append st s0 xs)) s.
Proof.
  intros W0 W Hd.
  destruct (Nat.eq_dec (scap s) 0) as [Hc|Hc]; [now apply cap0_frame|].
  assert (Hs : sarr s < length st)
    by (apply nth_nonempty; destruct W; unfold backing in *; lia).
  destruct W0 as [A1 A2], W as [B1 B2]; unfold backing in A2, B2.
  unfold append; destruct (Nat.leb (slen s0 + length xs) (scap s0)) eqn:E;
    simpl.
  - apply Nat.leb_le in E.
    destruct (Nat.eq_dec (scap s0) 0) as [H0|H0].
    + assert (slen s0 = 0) as Hl by lia.
      destruct xs; simpl in E; [|lia].
      rewrite Hl, write_at_nil; unfold backing; rewrite set_nth_nth.
      split; [reflexivity | split; assumption].
    + destruct (Nat.eq_dec (sarr s) (sarr s0)) as [Ha|Ha].
      * assert (s = s0) as <-
          by (destruct Hd as [?|[?|[?|?]]]; [assumption|lia|lia|congruence]).
        unfold elems, slice_wf, backing.
        rewrite nth_set_nth_same by exact Hs.
        rewrite firstn_write_at by lia.
        rewrite length_write_at by lia.
        split; [reflexivity | lia].
      * unfold elems, slice_wf, backing.
        rewrite nth_set_nth_other by exact Ha.
        split; [reflexivity | split; assumption].
  - unfold elems, slice_wf, backing; rewrite app_nth1 by exact Hs.
    split; [reflexivity | split; assumption].
Qed.

End Slices.

(** ** The reconciler *)

Section Reconciler.

Variable ParseNamed : string -> result Named.
Variable HumanDuration : Z -> string.
Variable HumanSize : Z -> string.
Variable Now : Z.

Let process_ref' := process_ref ParseNamed.
Let triples' := triples ParseNamed.
Let scan' := scan ParseNamed.
Let list_spec' := list_spec ParseNamed HumanDuration HumanSize Now.

Lemma is_dangling_spec (st : store) (tags digests : slice) :
  slice_wf st tags -> slice_wf st digests ->
  is_dangling st tags digests = true <->
  elems st tags = ["<none>:<none>"] /\ elems st digests = ["<none>@<none>"].
Proof.
  intros Wt Wd; unfold is_dangling.
  pose proof (length_elems _ _ Wt) as Lt; pose proof (length_elems _ _ Wd) as Ld.
  rewrite !andb_true_iff, !Nat.eqb_eq, !String.eqb_eq.
  split.
  - intros [[[H1 H2] H3] H4].
    destruct (elems st tags) as [|a [|? ?]]; simpl in *; try lia.
    destruct (elems st digests) as [|b [|? ?]]; simpl in *; try lia.
    subst; split; reflexivity.
  - intros [H1 H2]; rewrite H1 in Lt |- *; rewrite H2 in Ld |- *.
    simpl in *; repeat split; auto.
Qed.

Lemma heap_combined (st : store) (image : Image) :
  fst (combined st image) =
  fst (append st (RepoTags image)
         (elems st (if is_dangling st (RepoTags image) (RepoDigests image)
                    then Slice.empty else RepoDigests image))).
Proof. unfold combined; destruct (append _ _ _); reflexivity. Qed.

Lemma refs_combined (st : store) (image : Image) :
  slice_wf st (RepoTags image) ->
  snd (combined st image) =
  (elems st (RepoTags image)
   ++ (if is_dangling st (RepoTags image) (RepoDigests image)
       then [] else elems st (RepoDigests image)))%list.
Proof.
  intro W; unfold combined.
  pose proof (append_elems st (RepoTags image)
    (elems st (if is_dangling st (RepoTags image) (RepoDigests image)
               then Slice.empty else RepoDigests image)) W) as H.
  destruct (append _ _ _) as [st' s]; simpl in *; rewrite H.
  destruct (is_dangling _ _ _); reflexivity.
Qed.

Lemma process_ref_err (r : string) (e : error) :
  process_ref' r = Err e -> HasPrefix r none = false /\ ParseNamed r = Err e.
Proof.
  unfold process_ref', process_ref.
  destruct (HasPrefix r none); simpl; [discriminate|].
  destruct (ParseNamed r) as [ref|e']; [|intro H; now inversion H].
  destruct (Digest ref), (Tag ref); discriminate.
Qed.

Lemma process_ref_ok (r : string) :
  (HasPrefix r none = true \/ exists ref, ParseNamed r = Ok ref) ->
  exists t, process_ref' r = Ok t.
Proof.
  unfold process_ref', process_ref; intros [H|[ref H]].
  - rewrite H; simpl; eauto.
  - destruct (HasPrefix r none); simpl; [eauto|].
    rewrite H; destruct (Digest ref), (Tag ref); eauto.
Qed.

Lemma triples_ok (refs : list string) :
  (forall r, In r refs -> exists t, process_ref' r = Ok t) ->
  exists ts, triples' refs = Ok ts
             /\ Forall2 (fun r t => process_ref' r = Ok t) refs ts.
Proof.
  induction refs as [|r rs IH]; intro H; [exists []; split; constructor|].
  destruct (H r (or_introl eq_refl)) as [t Ht].
  destruct IH as [ts [H1 H2]]; [intros; apply H; now right|].
  exists (t :: ts); split; [|now constructor].
  unfold triples' in *; simpl; unfold process_ref' in Ht.
  now rewrite Ht, H1.
Qed.

Lemma triples_Forall2 (refs : list string) (ts : list triple) :
  Forall2 (fun r t => process_ref' r = Ok t) refs ts -> triples' refs = Ok ts.
Proof.
  induction 1 as [|r t rs ts Ht _ IH]; [reflexivity|].
  unfold triples' in *; simpl; unfold process_ref' in Ht.
  now rewrite Ht, IH.
Qed.

Lemma scan_triples (refs : list string) (ts : list triple) :
  triples' refs = Ok ts -> scan' refs = (ts, Ok tt).
Proof.
  unfold triples', scan'; revert ts; induction refs as [|r rs IH]; intros ts H;
    simpl in *; [now inversion H|].
  destruct (process_ref ParseNamed r); [|discriminate].
  destruct (triples ParseNamed rs) as [ts'|]; [|discriminate].
  inversion H; subst; now rewrite (IH ts' eq_refl).
Qed.

Lemma scan_err (refs : list string) (e : error) :
  snd (scan' refs) = Err e -> exists r, In r refs /\ process_ref' r = Err e.
Proof.
  unfold scan', process_ref'; induction refs as [|r rs IH]; simpl;
    [discriminate|].
  destruct (process_ref ParseNamed r) as [t|e'] eqn:E.
  - destruct (scan _ rs) as [ts res] eqn:Es; simpl; intro H.
    destruct IH as [r' [Hin Hr]]; [exact H|].
    exists r'; split; [now right|exact Hr].
  - simpl; intro H; inversion H; subst; exists r; split; [now left|exact E].
Qed.

End Reconciler.

(** ** The loop over the records *)

Section ListSpec.

Variable ParseNamed : string -> result Named.
Variable HumanDuration : Z -> string.
Variable HumanSize : Z -> string.
Variable Now : Z.

Let list_spec' := list_spec ParseNamed HumanDuration HumanSize Now.
Let row' := row HumanDuration HumanSize Now.

(** Every line of the loop is the row of a triple of one of the records. *)
Lemma list_spec_lines (quiet noTrunc showDigests : bool) (images : list Image)
    (st : store) :
  Forall (fun l => exists image t, In image images
            /\ l = row' quiet showDigests (display_id noTrunc (ID image)) t image)
    (snd (list_spec' quiet noTrunc showDigests images st)).
Proof.
  unfold list_spec'; revert st; induction images as [|image rest IH]; intro st;
    simpl; [constructor|].
  destruct (combined st image) as [st1 refs].
  destruct (scan ParseNamed refs) as [ts res].
  assert (Hhere : Forall (fun l => exists image' t, In image' (image :: rest)
            /\ l = row' quiet showDigests (display_id noTrunc (ID image')) t image')
            (map (fun t => row HumanDuration HumanSize Now quiet showDigests
                             (display_id noTrunc (ID image)) t image) ts)).
  { apply Forall_map, Forall_forall; intros t _.
    exists image, t; split; [now left|reflexivity]. }
  destruct res as [u|e]; simpl; [|exact Hhere].
  specialize (IH st1).
  destruct (list_spec _ _ _ _ _ _ _ rest st1) as [[r st2] ls']; simpl in *.
  apply Forall_app; split; [exact Hhere|].
  eapply Forall_impl; [|exact IH].
  intros l [image' [t [Hin Hl]]]; exists image', t; split; [now right|exact Hl].
Qed.

(** A failing loop fails with the error of the parser on a reference that
    does not start with the none sentinel. *)
Lemma list_spec_err (quiet noTrunc showDigests : bool) (images : list Image)
    (st : store) (e : error) :
  fst (fst (list_spec' quiet noTrunc showDigests images st)) = Err e ->
  exists x, HasPrefix x none = false /\ ParseNamed x = Err e.
Proof.
  unfold list_spec'; revert st; induction images as [|image rest IH]; intro st;
    simpl; [discriminate|].
  destruct (combined st image) as [st1 refs].
  pose proof (scan_err ParseNamed refs e) as He.
  destruct (scan ParseNamed refs) as [ts [u|e']]; simpl in *.
  - specialize (IH st1).
    destruct (list_spec _ _ _ _ _ _ _ rest st1) as [[r st2] ls']; exact IH.
  - intro H; inversion H; subst.
    destruct He as [x [_ Hx]]; [reflexivity|].
    exists x; now apply process_ref_err.
Qed.

(** In quiet mode the digest switch plays no part. *)
Lemma list_spec_quiet (noTrunc sd1 sd2 : bool) (images : list Image)
    (st : store) :
  list_spec' true noTrunc sd1 images st = list_spec' true noTrunc sd2 images st.
Proof.
  unfold list_spec'; revert st; induction images as [|image rest IH]; intro st;
    simpl; [reflexivity|].
  destruct (combined st image) as [st1 refs].
  destruct (scan ParseNamed refs) as [ts res].
  assert (Hm : map (fun t => row HumanDuration HumanSize Now true sd1
                               (display_id noTrunc (ID image)) t image) ts
             = map (fun t => row HumanDuration HumanSize Now true sd2
                               (display_id noTrunc (ID image)) t image) ts).
  { apply map_ext; intros [[? ?] ?]; reflexivity. }
  rewrite Hm, IH; reflexivity.
Qed.

(** The frame of the loop: the slices in [S] keep their elements, when the
    tag slice of each record is in [S] and every slice of [S] is that tag
    slice or lives in another array. *)
Lemma list_spec_frame (quiet noTrunc showDigests : bool) (images : list Image)
    (st : store) (S : list slice) :
  Forall (slice_wf st) S ->
  (forall image, In image images -> In (RepoTags image) S) ->
  (forall image s, In image images -> In s S ->
     s = RepoTags image \/ scap s = 0 \/ scap (RepoTags image) = 0
     \/ sarr s <> sarr (RepoTags image)) ->
  Forall (fun s => elems (snd (fst (list_spec' quiet noTrunc showDigests images st))) s
                   = elems st s) S.
Proof.
  unfold list_spec'; revert st; induction images as [|image rest IH];
    intros st Hwf Hin Hd; simpl.
  - apply Forall_forall; reflexivity.
  - pose proof (heap_combined st image) as Hh.
    destruct (combined st image) as [st1 refs]; simpl in Hh.
    assert (Hstep : forall s, In s S -> elems st1 s = elems st s
                                     /\ slice_wf st1 s).
    { intros s Hs; rewrite Hh; apply append_frame.
      - rewrite Forall_forall in Hwf; apply Hwf, Hin; now left.
      - rewrite Forall_forall in Hwf; now apply Hwf.
      - apply Hd; [now left|exact Hs]. }
    assert (Hrest : Forall (fun s => elems (snd (fst (list_spec ParseNamed
                      HumanDuration HumanSize Now quiet noTrunc showDigests
                      rest st1))) s = elems st1 s) S).
    { apply IH.
      - apply Forall_forall; intros s Hs; apply Hstep, Hs.
      - intros; apply Hin; now right.
      - intros; apply Hd; [now right|assumption]. }
    destruct (scan ParseNamed refs) as [ts [u|e]]; simpl.
    + destruct (list_spec _ _ _ _ _ _ _ rest st1) as [[r st2] ls'] ; simpl in *.
      apply Forall_forall; intros s Hs.
      rewrite Forall_forall in Hrest; rewrite Hrest by exact Hs.
      apply Hstep, Hs.
    + apply Forall_forall; intros s Hs; apply Hstep, Hs.
Qed.

End ListSpec.

(** ** Helpers for the claims *)

Lemma written_Flush (w : writer) : written (Flush w) = written w.
Proof. unfold Flush, written; simpl; now rewrite app_nil_r. Qed.

Lemma header_tabbed (showDigests : bool) : has_tab (header showDigests) = true.
Proof. destruct showDigests; reflexivity. Qed.

Lemma row_tabbed (HumanDuration HumanSize : Z -> string) (Now : Z)
    (showDigests : bool) (id : string) (t : triple) (image : Image) :
  has_tab (row HumanDuration HumanSize Now false showDigests id t image) = true.
Proof.
  destruct t as [[repo tag] digest]; unfold row; simpl.
  destruct showDigests; apply has_tab_tab.
Qed.

Lemma NoDup_map_inj {A B} (f : A -> B) (l : list A) (x y : A) :
  NoDup (map f l) -> In x l -> In y l -> f x = f y -> x = y.
Proof.
  induction l as [|a l IH]; simpl; [contradiction|].
  intros Hnd Hx Hy Hf; inversion Hnd as [|? ? Hnin Hnd']; subst.
  destruct Hx as [<-|Hx], Hy as [<-|Hy]; auto.
  - exfalso; apply Hnin; rewrite Hf; now apply in_map.
  - exfalso; apply Hnin; rewrite <- Hf; now apply in_map.
Qed.

Lemma in_all_slices (images : list Image) (image : Image) (s : slice) :
  In image images -> (s = RepoTags image \/ s = RepoDigests image) ->
  In s (all_slices images).
Proof.
  intros Hi Hs; unfold all_slices; apply in_flat_map.
  exists image; split; [exact Hi|]; destruct Hs as [-> | ->]; simpl; auto.
Qed.

Lemma nodup_slices_disjoint (images : list Image) :
  NoDup (map sarr (filter (fun s => negb (Nat.eqb (scap s) 0))
                          (all_slices images))) ->
  forall image s, In image images -> In s (all_slices images) ->
    s = RepoTags image \/ scap s = 0 \/ scap (RepoTags image) = 0
    \/ sarr s <> sarr (RepoTags image).
Proof.
  intros Hnd image s Hi Hs.
  destruct (Nat.eq_dec (scap s) 0) as [H0|H0]; [tauto|].
  destruct (Nat.eq_dec (scap (RepoTags image)) 0) as [H1|H1]; [tauto|].
  destruct (Nat.eq_dec (sarr s) (sarr (RepoTags image))) as [Ha|Ha]; [|tauto].
  left; eapply NoDup_map_inj; [exact Hnd| | |exact Ha];
    apply filter_In; split;
    try (apply Bool.negb_true_iff, Nat.eqb_neq; assumption);
    [exact Hs | apply (in_all_slices images image); auto].
Qed.

Lemma Forall2_exists {A B} (R : A -> B -> Prop) (l : list A) :
  (forall a, In a l -> exists b, R a b) -> exists l', Forall2 R l l'.
Proof.
  induction l as [|a l IH]; intro H; [exists []; constructor|].
  destruct (H a (or_introl eq_refl)) as [b Hb].
  destruct IH as [l' Hl']; [intros; apply H; now right|].
  exists (b :: l'); now constructor.
Qed.

Lemma reconcile_all_Forall2 (ParseNamed : string -> result Named) (st : store)
    (images : list Image) (tss : list (list triple)) :
  Forall2 (fun image ts => reconcile ParseNamed st image = Ok ts) images tss ->
  reconcile_all ParseNamed st images = Ok tss.
Proof.
  induction 1 as [|image ts images tss H _ IH]; simpl; [reflexivity|].
  now rewrite H, IH.
Qed.

(** ** Records reconciled independently *)

Section Independence.

Variable ParseNamed : string -> result Named.
Variable HumanDuration : Z -> string.
Variable HumanSize : Z -> string.
Variable Now : Z.

Lemma list_spec_indep (quiet noTrunc showDigests : bool) (images : list Image)
    (st0 st : store) (S : list slice) (tss : list (list triple)) :
  Forall (slice_wf st0) S -> Forall (slice_wf st) S ->
  Forall (fun s => elems st s = elems st0 s) S ->
  (forall image, In image images ->
     In (RepoTags image) S /\ In (RepoDigests image) S) ->
  (forall image s, In image images -> In s S ->
     s = RepoTags image \/ scap s = 0 \/ scap (RepoTags image) = 0
     \/ sarr s <> sarr (RepoTags image)) ->
  reconcile_all ParseNamed st0 images = Ok tss ->
  fst (fst (list_spec ParseNamed HumanDuration HumanSize Now quiet noTrunc
              showDigests images st)) = Ok tt
  /\ snd (list_spec ParseNamed HumanDuration HumanSize Now quiet noTrunc
            showDigests images st)
     = concat (map (fun p => map (fun t => row HumanDuration HumanSize Now
                                    quiet showDigests
                                    (display_id noTrunc (ID (fst p))) t (fst p))
                                 (snd p))
                   (combine images tss)).
Proof.
  revert st tss; induction images as [|image rest IH];
    intros st tss W0 W E Hin Hd Hrec; simpl in Hrec.
  - inversion Hrec; subst; split; reflexivity.
  - destruct (reconcile ParseNamed st0 image) as [ts|e] eqn:E1; [|discriminate].
    destruct (reconcile_all ParseNamed st0 rest) as [tss'|e] eqn:E2;
      [|discriminate].
    inversion Hrec; subst tss; clear Hrec.
    destruct (Hin image (or_introl eq_refl)) as [Ht Hdg].
    rewrite Forall_forall in W0, W, E.
    assert (Hdang : is_dangling st (RepoTags image) (RepoDigests image)
                    = is_dangling st0 (RepoTags image) (RepoDigests image))
      by (unfold is_dangling; rewrite (E _ Ht), (E _ Hdg); reflexivity).
    assert (Hrefs : snd (combined st image) = snd (combined st0 image)).
    { rewrite (refs_combined st image (W _ Ht)),
        (refs_combined st0 image (W0 _ Ht)), Hdang, (E _ Ht), (E _ Hdg).
      reflexivity. }
    unfold reconcile in E1; rewrite <- Hrefs in E1.
    pose proof (scan_triples ParseNamed _ _ E1) as Hs.
    pose proof (heap_combined st image) as Hh.
    assert (Hstep : forall s, In s S ->
              elems (fst (combined st image)) s = elems st s
              /\ slice_wf (fst (combined st image)) s).
    { intros s Hs'; rewrite Hh; apply append_frame; auto.
      apply Hd; [now left|exact Hs']. }
    simpl.
    destruct (combined st image) as [st1 refs]; simpl in Hs, Hstep.
    rewrite Hs.
    destruct (IH st1 tss') as [IH1 IH2].
    + now apply Forall_forall.
    + apply Forall_forall; intros s Hs'; apply Hstep, Hs'.
    + apply Forall_forall; intros s Hs'.
      rewrite (proj1 (Hstep s Hs')); apply E, Hs'.
    + intros; apply Hin; now right.
    + intros; apply Hd; [now right|assumption].
    + reflexivity.
    + destruct (list_spec _ _ _ _ _ _ _ rest st1) as [[r st2] ls'];
        simpl in *; split; [exact IH1|now rewrite IH2].
Qed.

(** The first failing reference of a record ends the scan with the triples
    of the references before it. *)
Lemma scan_first_err (rb ra : list string) (x : string) (ts0 : list triple)
    (e : error) :
  Forall2 (fun y t => process_ref ParseNamed y = Ok t) rb ts0 ->
  process_ref ParseNamed x = Err e ->
  scan ParseNamed (rb ++ x :: ra)%list = (ts0, Err e).
Proof.
  intros H Hx; induction H as [|y t rb ts Hy _ IH]; simpl.
  - now rewrite Hx.
  - now rewrite Hy, IH.
Qed.

(** A listing whose first failing reference is in [image]: the records
    before it write their rows, [image] the rows of the references before
    the failing one, and the loop stops with the parser's error. *)
Lemma list_spec_first_error (quiet noTrunc showDigests : bool)
    (pre : list Image) (image : Image) (post : list Image)
    (st0 st : store) (S : list slice) (tss : list (list triple))
    (rb ra : list string) (x : string) (ts0 : list triple) (e : error) :
  Forall (slice_wf st0) S -> Forall (slice_wf st) S ->
  Forall (fun s => elems st s = elems st0 s) S ->
  (forall img, In img (pre ++ [image])%list ->
     In (RepoTags img) S /\ In (RepoDigests img) S) ->
  (forall img s, In img pre -> In s S ->
     s = RepoTags img \/ scap s = 0 \/ scap (RepoTags img) = 0
     \/ sarr s <> sarr (RepoTags img)) ->
  reconcile_all ParseNamed st0 pre = Ok tss ->
  snd (combined st0 image) = (rb ++ x :: ra)%list ->
  Forall2 (fun y t => process_ref ParseNamed y = Ok t) rb ts0 ->
  process_ref ParseNamed x = Err e ->
  fst (fst (list_spec ParseNamed HumanDuration HumanSize Now quiet noTrunc
              showDigests (pre ++ image :: post) st)) = Err e
  /\ snd (list_spec ParseNamed HumanDuration HumanSize Now quiet noTrunc
            showDigests (pre ++ image :: post) st)
     = (concat (map (fun p => map (fun t => row HumanDuration HumanSize Now
                                     quiet showDigests
                                     (display_id noTrunc (ID (fst p))) t (fst p))
                                  (snd p))
                    (combine pre tss))
        ++ map (fun t => row HumanDuration HumanSize Now quiet showDigests
                           (display_id noTrunc (ID image)) t image) ts0)%list.
Proof.
  intros W0 W E Hin Hd Hrec Hc Hrb Hx.
  revert st tss W E Hrec; induction pre as [|image' pre IH];
    intros st tss W E Hrec; simpl in Hrec.
  - inversion Hrec; subst tss; clear Hrec.
    destruct (Hin image (or_introl eq_refl)) as [Ht Hdg].
    rewrite Forall_forall in W0, W, E.
    assert (Hdang : is_dangling st (RepoTags image) (RepoDigests image)
                    = is_dangling st0 (RepoTags image) (RepoDigests image))
      by (unfold is_dangling; rewrite (E _ Ht), (E _ Hdg); reflexivity).
    assert (Hrefs : snd (combined st image) = snd (combined st0 image)).
    { rewrite (refs_combined st image (W _ Ht)),
        (refs_combined st0 image (W0 _ Ht)), Hdang, (E _ Ht), (E _ Hdg).
      reflexivity. }
    rewrite Hc in Hrefs; simpl.
    destruct (combined st image) as [st1 refs]; simpl in Hrefs; subst refs.
    rewrite (scan_first_err rb ra x ts0 e Hrb Hx); split; reflexivity.
  - destruct (reconcile ParseNamed st0 image') as [ts|e'] eqn:E1;
      [|discriminate].
    destruct (reconcile_all ParseNamed st0 pre) as [tss'|e'] eqn:E2;
      [|discriminate].
    inversion Hrec; subst tss; clear Hrec.
    destruct (Hin image' (or_introl eq_refl)) as [Ht Hdg].
    pose proof W as W'; pose proof E as E'.
    rewrite Forall_forall in W0, W', E'.
    assert (Hdang : is_dangling st (RepoTags image') (RepoDigests image')
                    = is_dangling st0 (RepoTags image') (RepoDigests image'))
      by (unfold is_dangling; rewrite (E' _ Ht), (E' _ Hdg); reflexivity).
    assert (Hrefs : snd (combined st image') = snd (combined st0 image')).
    { rewrite (refs_combined st image' (W' _ Ht)),
        (refs_combined st0 image' (W0 _ Ht)), Hdang, (E' _ Ht), (E' _ Hdg).
      reflexivity. }
    unfold reconcile in E1; rewrite <- Hrefs in E1.
    pose proof (scan_triples ParseNamed _ _ E1) as Hs.
    pose proof (heap_combined st image') as Hh.
    assert (Hstep : forall s, In s S ->
              elems (fst (combined st image')) s = elems st s
              /\ slice_wf (fst (combined st image')) s).
    { intros s Hs'; rewrite Hh; apply append_frame; auto.
      apply Hd; [now left|exact Hs']. }
    rewrite <- Forall_forall in W0.
    simpl.
    destruct (combined st image') as [st1 refs]; simpl in Hs, Hstep.
    rewrite Hs.
    destruct (IH ltac:(intros; apply Hin; now right)
                 ltac:(intros; apply Hd; [now right|assumption]) st1 tss')
      as [IH1 IH2].
    + apply Forall_forall; intros s Hs'; apply Hstep, Hs'.
    + apply Forall_forall; intros s Hs'.
      rewrite (proj1 (Hstep s Hs')); apply E', Hs'.
    + reflexivity.
    + destruct (list_spec _ _ _ _ _ _ _ (pre ++ image :: post) st1)
        as [[r st2] ls']; simpl in *; split; [exact IH1|].
      rewrite IH2, app_assoc; reflexivity.
Qed.

End Independence.

(** * The claims *)

Section Claims.

Variable ParseNamed : string -> result Named.
Variable HumanDuration : Z -> string.
Variable HumanSize : Z -> string.
Variable Now : Z.

(** C1: a record whose tags are exactly ["<none>:<none>"] and whose digests
    are exactly ["<none>@<none>"] is reconciled to the single triple of
    none values, and [CmdImages] writes exactly one row for it. *)
Theorem dangling_single_row (st : store) (image : Image) :
  slice_wf st (RepoTags image) -> slice_wf st (RepoDigests image) ->
  elems st (RepoTags image) = ["<none>:<none>"] ->
  elems st (RepoDigests image) = ["<none>@<none>"] ->
  reconcile ParseNamed st image = Ok [(none, none, none)]
  /\ forall quiet noTrunc showDigests w,
       let '(r, s') := each_image ParseNamed HumanDuration HumanSize Now
                         quiet noTrunc showDigests image (mkState st w) in
       r = Ok tt
       /\ written (tw s') =
          (written w ++ [row HumanDuration HumanSize Now quiet showDigests
                           (display_id noTrunc (ID image))
                           (none, none, none) image])%list.
Proof.
  intros Wt Wd Ht Hd.
  assert (Hdang : is_dangling st (RepoTags image) (RepoDigests image) = true)
    by (apply is_dangling_spec; auto).
  pose proof (refs_combined st image Wt) as Hr.
  rewrite Hdang, Ht in Hr; simpl in Hr.
  split.
  - unfold reconcile; rewrite Hr; reflexivity.
  - intros quiet noTrunc showDigests w.
    rewrite each_image_spec.
    destruct (combined st image) as [st1 refs]; simpl in Hr; subst refs.
    simpl; split; [reflexivity|].
    unfold writes; simpl; apply written_Write.
Qed.

(** C2: in a listing whose slices are well formed and in distinct arrays
    and whose references all start with the none sentinel or parse, every
    record that is not the dangling singleton is reconciled to one triple
    per tag followed by one triple per digest, each in its slice's order
    ([length] of tags plus [length] of digests triples in all), and
    [CmdImages] succeeds and writes, after the header, the rows of the
    records' triples record by record in the order of the records, with
    no sorting across records or within one. *)
Theorem reconcile_tags_then_digests (quiet noTrunc showDigests : bool)
    (images : list Image) (st : store) :
  Forall (slice_wf st) (all_slices images) ->
  NoDup (map sarr (filter (fun s => negb (Nat.eqb (scap s) 0))
                          (all_slices images))) ->
  (forall image x, In image images ->
     In x (elems st (RepoTags image) ++ elems st (RepoDigests image))%list ->
     HasPrefix x none = true \/ exists ref, ParseNamed x = Ok ref) ->
  exists tss,
    reconcile_all ParseNamed st images = Ok tss
    /\ Forall2 (fun image ts =>
         ~ (elems st (RepoTags image) = ["<none>:<none>"]
            /\ elems st (RepoDigests image) = ["<none>@<none>"]) ->
         exists tts dts,
           Forall2 (fun x t => process_ref ParseNamed x = Ok t)
             (elems st (RepoTags image)) tts
           /\ Forall2 (fun x t => process_ref ParseNamed x = Ok t)
                (elems st (RepoDigests image)) dts
           /\ length tts = slen (RepoTags image)
           /\ length dts = slen (RepoDigests image)
           /\ ts = (tts ++ dts)%list) images tss
    /\ fst (CmdImages ParseNamed HumanDuration HumanSize Now quiet noTrunc
              showDigests (Ok images) (init st)) = Ok tt
    /\ written (tw (snd (CmdImages ParseNamed HumanDuration HumanSize Now
                           quiet noTrunc showDigests (Ok images) (init st))))
       = ((if quiet then [] else [header showDigests])
          ++ concat (map (fun p => map (fun t => row HumanDuration HumanSize
                                           Now quiet showDigests
                                           (display_id noTrunc (ID (fst p)))
                                           t (fst p))
                                        (snd p))
                         (combine images tss)))%list.
Proof.
  intros Hwf Hnd Hok.
  destruct (Forall2_exists (fun image ts =>
      reconcile ParseNamed st image = Ok ts
      /\ (~ (elems st (RepoTags image) = ["<none>:<none>"]
             /\ elems st (RepoDigests image) = ["<none>@<none>"]) ->
          exists tts dts,
            Forall2 (fun x t => process_ref ParseNamed x = Ok t)
              (elems st (RepoTags image)) tts
            /\ Forall2 (fun x t => process_ref ParseNamed x = Ok t)
                 (elems st (RepoDigests image)) dts
            /\ length tts = slen (RepoTags image)
            /\ length dts = slen (RepoDigests image)
            /\ ts = (tts ++ dts)%list)) images) as [tss Htss].
  { intros image Hi.
    rewrite Forall_forall in Hwf.
    pose proof (Hwf _ (in_all_slices images image _ Hi (or_introl eq_refl))) as Wt.
    pose proof (Hwf _ (in_all_slices images image _ Hi (or_intror eq_refl))) as Wd.
    pose proof (refs_combined st image Wt) as Hr.
    destruct (is_dangling st (RepoTags image) (RepoDigests image)) eqn:Ed.
    - destruct (triples_ok ParseNamed (snd (combined st image))) as [ts [Hts _]].
      { intros x Hx; apply process_ref_ok, (Hok image x Hi).
        rewrite Hr, app_nil_r in Hx; apply in_or_app; now left. }
      exists ts; split; [exact Hts|].
      intro Hn; exfalso; apply Hn, is_dangling_spec; auto.
    - destruct (triples_ok ParseNamed (elems st (RepoTags image))) as [tts [_ Ft]].
      { intros x Hx; apply process_ref_ok, (Hok image x Hi), in_or_app; now left. }
      destruct (triples_ok ParseNamed (elems st (RepoDigests image)))
        as [dts [_ Fd]].
      { intros x Hx; apply process_ref_ok, (Hok image x Hi), in_or_app; now right. }
      exists (tts ++ dts)%list; split.
      + unfold reconcile; rewrite Hr.
        apply triples_Forall2, Forall2_app; assumption.
      + intros _; exists tts, dts; repeat split; try assumption.
        * rewrite <- (Forall2_length Ft); now apply length_elems.
        * rewrite <- (Forall2_length Fd); now apply length_elems. }
  assert (Hrec : reconcile_all ParseNamed st images = Ok tss).
  { apply reconcile_all_Forall2.
    eapply Forall2_impl; [|exact Htss]; intros a b Hab; apply Hab. }
  exists tss; split; [exact Hrec|split].
  { eapply Forall2_impl; [|exact Htss]; intros a b Hab; apply Hab. }
  destruct (list_spec_indep ParseNamed HumanDuration HumanSize Now quiet
              noTrunc showDigests images st st (all_slices images) tss Hwf Hwf)
    as [H1 H2].
  - apply Forall_forall; reflexivity.
  - intros image Hi; split; apply (in_all_slices images image); auto.
  - apply nodup_slices_disjoint; exact Hnd.
  - exact Hrec.
  - unfold init; rewrite CmdImages_spec.
    destruct (list_spec _ _ _ _ _ _ _ images st) as [[r st'] ls];
      simpl in *; subst r; rewrite <- H2.
    split; [reflexivity|].
    destruct quiet; simpl;
      rewrite ?written_Flush, written_writes, ?written_Write; reflexivity.
Qed.

(** C3 (as amended): when the first reference of the listing that fails
    to reconcile is [x], a reference of [image] that does not start with
    the none sentinel and that the parser rejects with [e] (the records
    before [image] reconcile, and so do the references [rb] of [image]
    before [x], tags first and then digests), the listing call returns [e]
    unchanged. Without the quiet flag nothing reaches the user-visible
    stream: header and rows stay in the unflushed tabwriter buffer. With
    the quiet flag, the id rows of the records before [image] and of the
    references [rb] have reached the stream, and nothing else. *)
Theorem listing_error_no_table (quiet noTrunc showDigests : bool)
    (pre : list Image) (image : Image) (post : list Image) (st : store)
    (tss : list (list triple)) (rb ra : list string) (x : string)
    (ts0 : list triple) (e : error) :
  Forall (slice_wf st) (all_slices (pre ++ image :: post)%list) ->
  NoDup (map sarr (filter (fun s => negb (Nat.eqb (scap s) 0))
                          (all_slices (pre ++ image :: post)%list))) ->
  reconcile_all ParseNamed st pre = Ok tss ->
  (elems st (RepoTags image) ++ elems st (RepoDigests image))%list
    = (rb ++ x :: ra)%list ->
  Forall2 (fun y t => process_ref ParseNamed y = Ok t) rb ts0 ->
  HasPrefix x none = false ->
  ParseNamed x = Err e ->
  fst (CmdImages ParseNamed HumanDuration HumanSize Now quiet noTrunc
         showDigests (Ok (pre ++ image :: post)%list) (init st)) = Err e
  /\ (quiet = false ->
      out (tw (snd (CmdImages ParseNamed HumanDuration HumanSize Now quiet
                      noTrunc showDigests (Ok (pre ++ image :: post)%list)
                      (init st)))) = [])
  /\ (quiet = true ->
      Forall (fun img => has_tab (ID img) = false) (pre ++ [image])%list ->
      buf (tw (snd (CmdImages ParseNamed HumanDuration HumanSize Now quiet
                      noTrunc showDigests (Ok (pre ++ image :: post)%list)
                      (init st)))) = []
      /\ out (tw (snd (CmdImages ParseNamed HumanDuration HumanSize Now quiet
                         noTrunc showDigests (Ok (pre ++ image :: post)%list)
                         (init st))))
         = (concat (map (fun p => map (fun _ => display_id noTrunc (ID (fst p)))
                                      (snd p))
                        (combine pre tss))
            ++ map (fun _ => display_id noTrunc (ID image)) ts0)%list).
Proof.
  intros Hwf Hnd Hrec Hsplit Hrb Hpre Hparse.
  set (images := (pre ++ image :: post)%list) in *.
  assert (Hi : In image images) by (apply in_or_app; right; now left).
  pose proof Hwf as Hwf'; rewrite Forall_forall in Hwf'.
  pose proof (Hwf' _ (in_all_slices images image _ Hi (or_introl eq_refl))) as Wt.
  pose proof (Hwf' _ (in_all_slices images image _ Hi (or_intror eq_refl))) as Wd.
  assert (Hdang : is_dangling st (RepoTags image) (RepoDigests image) = false).
  { destruct (is_dangling _ _ _) eqn:Ed; [|reflexivity]; exfalso.
    apply is_dangling_spec in Ed as [Et Edg]; auto.
    rewrite Et, Edg in Hsplit.
    assert (Hx : In x ["<none>:<none>"; "<none>@<none>"]).
    { simpl in Hsplit; rewrite Hsplit; apply in_or_app; right; now left. }
    destruct Hx as [<- | [<- | []]]; discriminate. }
  assert (Hc : snd (combined st image) = (rb ++ x :: ra)%list).
  { rewrite (refs_combined st image Wt), Hdang; exact Hsplit. }
  assert (Hx : process_ref ParseNamed x = Err e).
  { unfold process_ref; rewrite Hpre; simpl; now rewrite Hparse. }
  destruct (list_spec_first_error ParseNamed HumanDuration HumanSize Now
              quiet noTrunc showDigests pre image post st st (all_slices images)
              tss rb ra x ts0 e Hwf Hwf) as [H1 H2].
  - apply Forall_forall; reflexivity.
  - intros img Himg; split; apply (in_all_slices images img); auto;
      apply in_app_or in Himg as [Himg|[<-|[]]]; apply in_or_app;
      [now left|now right; left|now left|now right; left].
  - intros img s Himg Hs; apply (nodup_slices_disjoint images Hnd);
      [apply in_or_app; now left|exact Hs].
  - exact Hrec.
  - exact Hc.
  - exact Hrb.
  - exact Hx.
  - fold images in H1, H2; unfold init; rewrite CmdImages_spec.
    destruct (list_spec _ _ _ _ _ _ _ images st) as [[r st'] ls];
      simpl in H1, H2; subst r ls; simpl.
    split; [reflexivity|split].
    + intro Hq; subst quiet; simpl.
      change (writes (Write ?w ?h) ?L) with (writes w (h :: L)).
      apply (writes_tabbed_out (mkWriter [] [])).
      constructor; [apply header_tabbed|].
      apply Forall_app; split.
      * apply Forall_forall; intros l Hl.
        apply in_concat in Hl as [ls [Hls Hl]].
        apply in_map_iff in Hls as [p [<- _]].
        apply in_map_iff in Hl as [t [<- _]]; apply row_tabbed.
      * apply Forall_forall; intros l Hl.
        apply in_map_iff in Hl as [t [<- _]]; apply row_tabbed.
    + intros Hq Hids; subst quiet; simpl.
      assert (Hrow : forall sd id t img,
                 row HumanDuration HumanSize Now true sd id t img = id)
        by (intros sd id [[? ?] ?] img; reflexivity).
      assert (Hm : (concat (map (fun p => map (fun t => row HumanDuration
                               HumanSize Now true showDigests
                               (display_id noTrunc (ID (fst p))) t (fst p))
                          (snd p)) (combine pre tss))
                    ++ map (fun t => row HumanDuration HumanSize Now true
                               showDigests (display_id noTrunc (ID image)) t
                               image) ts0)%list
                 = (concat (map (fun p => map (fun _ => display_id noTrunc
                                                          (ID (fst p)))
                                              (snd p)) (combine pre tss))
                    ++ map (fun _ => display_id noTrunc (ID image)) ts0)%list).
      { f_equal; [f_equal; apply map_ext; intro p|]; apply map_ext;
          intro t; apply Hrow. }
      rewrite Hm.
      apply (writes_untabbed (mkWriter [] [])); [reflexivity|].
      rewrite Forall_forall in Hids.
      apply Forall_app; split.
      * apply Forall_forall; intros l Hl.
        apply in_concat in Hl as [ls [Hls Hl]].
        apply in_map_iff in Hls as [p [<- Hp]].
        apply in_map_iff in Hl as [t [<- _]].
        apply has_tab_display_id, Hids, in_or_app; left.
        destruct p as [img ts]; apply in_combine_l in Hp; exact Hp.
      * apply Forall_forall; intros l Hl.
        apply in_map_iff in Hl as [t [<- _]].
        apply has_tab_display_id, Hids, in_or_app; right; now left.
Qed.

(** C4 (as amended): no triple has both its tag and its digest set; a
    triple of a digested reference has the none tag, one of a reference
    that is tagged and not digested has the none digest; a reference that
    is both keeps its digest and drops its tag (the [reference.Digested]
    case of the type switch comes first). *)
Theorem triple_tag_or_digest (x repo tag digest : string) :
  process_ref ParseNamed x = Ok (repo, tag, digest) ->
  (tag = none \/ digest = none)
  /\ forall ref, HasPrefix x none = false -> ParseNamed x = Ok ref ->
       (forall d, Digest ref = Some d -> tag = none /\ digest = d)
       /\ (forall t, Digest ref = None -> Tag ref = Some t ->
             tag = t /\ digest = none).
Proof.
  unfold process_ref; destruct (HasPrefix x none) eqn:Hp; simpl.
  - intro H; inversion H; subst; split; [now left|].
    intros ref Hf; discriminate.
  - destruct (ParseNamed x) as [ref0|e]; [|discriminate].
    destruct (Digest ref0) as [d0|] eqn:Ed; [|destruct (Tag ref0) as [t0|] eqn:Et];
      intro H; inversion H; subst.
    + split; [now left|]; intros ref _ Href; inversion Href; subst.
      split; [intros d Hd; rewrite Ed in Hd; now inversion Hd|].
      intros t Hd; rewrite Ed in Hd; discriminate.
    + split; [now right|]; intros ref _ Href; inversion Href; subst.
      split; [intros d Hd; rewrite Ed in Hd; discriminate|].
      intros t _ Ht; rewrite Et in Ht; now inversion Ht.
    + split; [now left|]; intros ref _ Href; inversion Href; subst.
      split; [intros d Hd; rewrite Ed in Hd; discriminate|].
      intros t _ Ht; rewrite Et in Ht; discriminate.
Qed.

(** C5: in quiet mode, with ids free of tabs (as image ids are), every row
    is handed to the stream as it is written: when [CmdImages] returns,
    the tabwriter buffer is empty and the stream holds exactly the rows,
    without a flush. *)
Theorem quiet_rows_unbuffered (noTrunc showDigests : bool)
    (images : list Image) (st : store) :
  Forall (fun image => has_tab (ID image) = false) images ->
  let '(r, st', ls) := list_spec ParseNamed HumanDuration HumanSize Now true
                         noTrunc showDigests images st in
  CmdImages ParseNamed HumanDuration HumanSize Now true noTrunc showDigests
    (Ok images) (init st) = (r, mkState st' (mkWriter [] ls)).
Proof.
  intro Hid; unfold init; rewrite CmdImages_spec.
  pose proof (list_spec_lines ParseNamed HumanDuration HumanSize Now true
                noTrunc showDigests images st) as Hl.
  destruct (list_spec _ _ _ _ _ _ _ images st) as [[r st'] ls]; simpl in *.
  assert (Hf : Forall (fun l => has_tab l = false) ls).
  { eapply Forall_impl; [|exact Hl].
    intros l [image [[[repo tag] digest] [Hin ->]]]; simpl.
    apply has_tab_display_id.
    rewrite Forall_forall in Hid; now apply Hid. }
  destruct (writes_untabbed (mkWriter [] []) ls eq_refl Hf) as [Hb Ho].
  destruct (writes (mkWriter [] []) ls) as [b o]; simpl in *; subst.
  destruct r; reflexivity.
Qed.

(** C6: in quiet mode the digest switch changes nothing, and every row
    written is the (possibly truncated) id of its record and nothing else. *)
Theorem quiet_rows_are_ids (noTrunc sd1 sd2 : bool) (images : list Image)
    (st : store) (w : writer) :
  CmdImages ParseNamed HumanDuration HumanSize Now true noTrunc sd1
    (Ok images) (mkState st w)
  = CmdImages ParseNamed HumanDuration HumanSize Now true noTrunc sd2
      (Ok images) (mkState st w)
  /\ exists ls,
       written (tw (snd (CmdImages ParseNamed HumanDuration HumanSize Now
                           true noTrunc sd1 (Ok images) (mkState st w))))
       = (written w ++ ls)%list
       /\ Forall (fun l => exists image, In image images
                             /\ l = display_id noTrunc (ID image)) ls.
Proof.
  rewrite !CmdImages_spec.
  rewrite (list_spec_quiet ParseNamed HumanDuration HumanSize Now noTrunc sd1 sd2).
  split; [reflexivity|].
  pose proof (list_spec_lines ParseNamed HumanDuration HumanSize Now true
                noTrunc sd2 images st) as Hl.
  destruct (list_spec _ _ _ _ _ _ _ images st) as [[r st'] ls]; simpl in *.
  exists ls; split.
  - destruct r; apply written_writes.
  - eapply Forall_impl; [|exact Hl].
    intros l [image [[[repo tag] digest] [Hin ->]]].
    exists image; split; [exact Hin|reflexivity].
Qed.

(** C7: a reference that starts with the none sentinel gives the triple of
    none values whatever the parser does: the parser is not consulted. *)
Theorem none_prefix_not_parsed (x : string) :
  HasPrefix x none = true ->
  forall parse : string -> result Named,
    process_ref parse x = Ok (none, none, none).
Proof. intros H parse; unfold process_ref; now rewrite H. Qed.

(** C8: the header is written once, first, and only without the quiet
    flag; with digests it names six columns, otherwise five. *)
Theorem header_once_first (quiet noTrunc showDigests : bool)
    (images : list Image) (st : store) :
  written (tw (snd (CmdImages ParseNamed HumanDuration HumanSize Now quiet
                      noTrunc showDigests (Ok images) (init st))))
  = ((if quiet then [] else [header showDigests])
     ++ snd (list_spec ParseNamed HumanDuration HumanSize Now quiet noTrunc
               showDigests images st))%list
  /\ header true = "REPOSITORY" ++ tab ++ "TAG" ++ tab ++ "DIGEST" ++ tab
                   ++ "IMAGE ID" ++ tab ++ "CREATED" ++ tab ++ "SIZE"
  /\ header false = "REPOSITORY" ++ tab ++ "TAG" ++ tab ++ "IMAGE ID" ++ tab
                    ++ "CREATED" ++ tab ++ "SIZE".
Proof.
  split; [|split; reflexivity].
  unfold init; rewrite CmdImages_spec.
  destruct (list_spec _ _ _ _ _ _ _ images st) as [[r st'] ls]; simpl.
  destruct r, quiet; simpl; rewrite ?written_Flush, written_writes, ?written_Write;
    reflexivity.
Qed.

(** C9: when the slices of the records are well formed and no two of them
    share a backing array (as for records decoded from the daemon's
    answer), the listing leaves the tags and digests of every record as
    they were; in particular appending the digests to the tag slice, even
    in place in its spare capacity, does not change the record's tags.
    Ids, sizes and creation times are never written. *)
Theorem listing_leaves_records (quiet noTrunc showDigests : bool)
    (images : list Image) (st : store) :
  Forall (slice_wf st) (all_slices images) ->
  NoDup (map sarr (filter (fun s => negb (Nat.eqb (scap s) 0))
                          (all_slices images))) ->
  let st' := heap (snd (CmdImages ParseNamed HumanDuration HumanSize Now
                          quiet noTrunc showDigests (Ok images) (init st))) in
  Forall (fun image => elems st' (RepoTags image) = elems st (RepoTags image)
                       /\ elems st' (RepoDigests image)
                          = elems st (RepoDigests image)) images.
Proof.
  intros Hwf Hnd st'.
  assert (Hheap : st' = snd (fst (list_spec ParseNamed HumanDuration HumanSize
                          Now quiet noTrunc showDigests images st))).
  { unfold st', init; rewrite CmdImages_spec.
    destruct (list_spec _ _ _ _ _ _ _ images st) as [[r st2] ls]; simpl.
    destruct r; reflexivity. }
  assert (Hin : forall image s, In image images ->
            (s = RepoTags image \/ s = RepoDigests image) ->
            In s (all_slices images)).
  { intros image s Hi Hs; unfold all_slices; apply in_flat_map.
    exists image; split; [exact Hi|]; destruct Hs as [-> | ->]; simpl; auto. }
  pose proof (list_spec_frame ParseNamed HumanDuration HumanSize Now quiet
                noTrunc showDigests images st (all_slices images) Hwf) as Hf.
  rewrite <- Hheap in Hf.
  assert (Hall : Forall (fun s => elems st' s = elems st s) (all_slices images)).
  { apply Hf.
    - intros image Hi; apply (Hin image); auto.
    - intros image s Hi Hs.
      destruct (Nat.eq_dec (scap s) 0) as [H0|H0]; [tauto|].
      destruct (Nat.eq_dec (scap (RepoTags image)) 0) as [H1|H1]; [tauto|].
      destruct (Nat.eq_dec (sarr s) (sarr (RepoTags image))) as [Ha|Ha];
        [|tauto].
      left; eapply NoDup_map_inj; [exact Hnd| | |exact Ha];
        apply filter_In; split;
        try (apply Bool.negb_true_iff, Nat.eqb_neq; assumption);
        [exact Hs | apply (Hin image); auto]. }
  rewrite Forall_forall in Hall |- *; intros image Hi.
  split; apply Hall, (Hin image); auto.
Qed.

(** C10: a reference that parses to a bare repository name, neither tagged
    nor digested, gives that name with the none tag and the none digest. *)
Theorem bare_name_triple (x : string) (ref : Named) :
  HasPrefix x none = false -> ParseNamed x = Ok ref ->
  Tag ref = None -> Digest ref = None ->
  process_ref ParseNamed x = Ok (Name ref, none, none).
Proof.
  intros Hp Hx Ht Hd; unfold process_ref; rewrite Hp; simpl.
  now rewrite Hx, Hd, Ht.
Qed.

End Claims.

(** * Witnesses and counterexamples *)

Lemma dangling_single_row_witness :
  reconcile sample_parse st0 dangling_img = Ok [(none, none, none)]
  /\ forall quiet noTrunc showDigests w,
       let '(r, s') := each_image sample_parse sample_duration sample_size 3600
                         quiet noTrunc showDigests dangling_img (mkState st0 w) in
       r = Ok tt
       /\ written (tw s') =
          (written w ++ [row sample_duration sample_size 3600 quiet showDigests
                           (display_id noTrunc (ID dangling_img))
                           (none, none, none) dangling_img])%list.
Proof.
  apply (dangling_single_row sample_parse sample_duration sample_size 3600);
    [unfold slice_wf; simpl; lia | unfold slice_wf; simpl; lia
    | reflexivity | reflexivity].
Defined.

Lemma reconcile_tags_then_digests_witness :
  exists tss,
    reconcile_all sample_parse st0 [dangling_img; foo_img] = Ok tss
    /\ Forall2 (fun image ts =>
         ~ (elems st0 (RepoTags image) = ["<none>:<none>"]
            /\ elems st0 (RepoDigests image) = ["<none>@<none>"]) ->
         exists tts dts,
           Forall2 (fun x t => process_ref sample_parse x = Ok t)
             (elems st0 (RepoTags image)) tts
           /\ Forall2 (fun x t => process_ref sample_parse x = Ok t)
                (elems st0 (RepoDigests image)) dts
           /\ length tts = slen (RepoTags image)
           /\ length dts = slen (RepoDigests image)
           /\ ts = (tts ++ dts)%list) [dangling_img; foo_img] tss
    /\ fst (CmdImages sample_parse sample_duration sample_size 3600 false
              false true (Ok [dangling_img; foo_img]) (init st0)) = Ok tt
    /\ written (tw (snd (CmdImages sample_parse sample_duration sample_size
                           3600 false false true (Ok [dangling_img; foo_img])
                           (init st0))))
       = ((if false then [] else [header true])
          ++ concat (map (fun p => map (fun t => row sample_duration
                                           sample_size 3600 false true
                                           (display_id false (ID (fst p)))
                                           t (fst p))
                                        (snd p))
                         (combine [dangling_img; foo_img] tss)))%list.
Proof.
  apply (reconcile_tags_then_digests sample_parse sample_duration sample_size
           3600).
  - repeat constructor; simpl; lia.
  - vm_compute; repeat constructor; simpl; intuition discriminate.
  - intros image x Hi Hx.
    destruct Hi as [<- | [<- | []]]; vm_compute in Hx;
      destruct Hx as [<- | [<- | []]];
      first [left; reflexivity | right; eexists; reflexivity].
Defined.

(** C3: with the quiet flag, the ids of the rows written before the failing
    reference have reached the stream when the error is returned. *)
Lemma quiet_listing_error_partial_output :
  fst (run true false false st0 [foo_img; bad_img])
    = Err "invalid reference format"
  /\ out (tw (snd (run true false false st0 [foo_img; bad_img])))
     = ["sha256:fedcb"; "sha256:fedcb"].
Proof. vm_compute; split; reflexivity. Qed.

Lemma listing_error_no_table_witness :
  fst (CmdImages sample_parse sample_duration sample_size 3600 true false
         false (Ok ([foo_img] ++ bad_img :: [])%list) (init st0))
    = Err "invalid reference format"
  /\ (true = false ->
      out (tw (snd (CmdImages sample_parse sample_duration sample_size 3600
                      true false false (Ok ([foo_img] ++ bad_img :: [])%list)
                      (init st0)))) = [])
  /\ (true = true ->
      Forall (fun img => has_tab (ID img) = false) ([foo_img] ++ [bad_img])%list ->
      buf (tw (snd (CmdImages sample_parse sample_duration sample_size 3600
                      true false false (Ok ([foo_img] ++ bad_img :: [])%list)
                      (init st0)))) = []
      /\ out (tw (snd (CmdImages sample_parse sample_duration sample_size 3600
                         true false false (Ok ([foo_img] ++ bad_img :: [])%list)
                         (init st0))))
         = (concat (map (fun p => map (fun _ => display_id false (ID (fst p)))
                                      (snd p))
                        (combine [foo_img]
                           [[("library/foo", "latest", none);
                             ("library/foo", none, sample_digest)]]))
            ++ map (fun _ : triple => display_id false (ID bad_img)) [])%list).
Proof.
  apply (listing_error_no_table sample_parse sample_duration sample_size 3600
           true false false [foo_img] bad_img [] st0
           [[("library/foo", "latest", none);
             ("library/foo", none, sample_digest)]] [] [] ":latest" []).
  - repeat constructor; simpl; lia.
  - vm_compute; repeat constructor; simpl; intuition discriminate.
  - vm_compute; reflexivity.
  - vm_compute; reflexivity.
  - constructor.
  - vm_compute; reflexivity.
  - vm_compute; reflexivity.
Defined.

(** C4: a reference that is tagged and digested ([name:tag@digest], which
    [reference.ParseNamed] returns as one value implementing both
    [reference.Tagged] and [reference.Digested]) gives a triple whose digest
    is set. *)
Lemma tagged_reference_digest_set :
  sample_parse ("library/foo:1.0@" ++ sample_digest)
    = Ok (mkNamed "library/foo" (Some "1.0") (Some sample_digest))
  /\ process_ref sample_parse ("library/foo:1.0@" ++ sample_digest)
     = Ok ("library/foo", none, sample_digest)
  /\ sample_digest <> none.
Proof. split; [reflexivity | split; [reflexivity | discriminate]]. Qed.

Lemma triple_tag_or_digest_witness :
  ("<none>" = none \/ sample_digest = none)
  /\ forall ref, HasPrefix ("library/foo:1.0@" ++ sample_digest) none = false ->
       sample_parse ("library/foo:1.0@" ++ sample_digest) = Ok ref ->
       (forall d, Digest ref = Some d -> "<none>" = none /\ sample_digest = d)
       /\ (forall t, Digest ref = None -> Tag ref = Some t ->
             "<none>" = t /\ sample_digest = none).
Proof.
  apply (triple_tag_or_digest sample_parse ("library/foo:1.0@" ++ sample_digest)
           "library/foo").
  reflexivity.
Defined.

Lemma quiet_rows_unbuffered_witness :
  let '(r, st', ls) := list_spec sample_parse sample_duration sample_size 3600
                         true false false [dangling_img; foo_img] st0 in
  CmdImages sample_parse sample_duration sample_size 3600 true false false
    (Ok [dangling_img; foo_img]) (init st0) = (r, mkState st' (mkWriter [] ls)).
Proof.
  apply quiet_rows_unbuffered; repeat constructor.
Defined.

Lemma none_prefix_not_parsed_witness :
  process_ref (fun _ => Err "invalid reference format") "<none>garbage"
  = Ok (none, none, none).
Proof. apply none_prefix_not_parsed; reflexivity. Defined.

Lemma listing_leaves_records_witness :
  let st' := heap (snd (CmdImages sample_parse sample_duration sample_size 3600
                          false false true (Ok [dangling_img; foo_img])
                          (init st0))) in
  Forall (fun image => elems st' (RepoTags image) = elems st0 (RepoTags image)
                       /\ elems st' (RepoDigests image)
                          = elems st0 (RepoDigests image))
    [dangling_img; foo_img].
Proof.
  apply listing_leaves_records.
  - repeat constructor; simpl; lia.
  - vm_compute; repeat constructor; simpl; intuition discriminate.
Defined.

Lemma bare_name_triple_witness :
  process_ref sample_parse "library/foo" = Ok ("library/foo", none, none).
Proof.
  apply (bare_name_triple sample_parse "library/foo"
           (mkNamed "library/foo" None None)); reflexivity.
Defined.

(** * Further properties of [CmdImages] *)

Section Extras.

Variable ParseNamed : string -> result Named.
Variable HumanDuration : Z -> string.
Variable HumanSize : Z -> string.
Variable Now : Z.

(** Filter flags are parsed in order and parsing stops at the first one that
    fails: its error is returned and the flags after it are never looked
    at. *)
Theorem parse_filters_first_error (Args : Type)
    (ParseFlag : string -> Args -> result Args)
    (pre post : list string) (f : string) (acc a : Args) (e : error) :
  parse_filters Args ParseFlag pre acc = Ok a -> ParseFlag f a = Err e ->
  parse_filters Args ParseFlag (pre ++ f :: post) acc = Err e.
Proof.
  revert acc; induction pre as [|g pre IH]; intros acc Hpre Hf; simpl in *.
  - inversion Hpre; subst; now rewrite Hf.
  - destruct (ParseFlag g acc) as [acc'|e']; [|discriminate].
    now apply IH.
Qed.

(** A filter flag that does not parse makes [CmdImages] return the error of
    [filters.ParseFlag] on that flag before the daemon is asked for the
    images, and nothing is written. *)
Theorem filter_error_before_listing (Args : Type) (NewArgs : Args)
    (ParseFlag : string -> Args -> result Args)
    (ImageList : ImageListOptions Args -> result (list Image))
    (quiet all noTrunc showDigests : bool) (flFilter args : list string)
    (e : error) (s : state) :
  parse_filters Args ParseFlag flFilter NewArgs = Err e ->
  CmdImages_args Args NewArgs ParseFlag ImageList ParseNamed HumanDuration
    HumanSize Now quiet all noTrunc showDigests flFilter args s = (Err e, s)
  /\ exists f a, In f flFilter /\ ParseFlag f a = Err e.
Proof.
  intro H; split.
  - unfold CmdImages_args; now rewrite H.
  - clear s; revert H; generalize NewArgs as acc.
    induction flFilter as [|g fs IH]; intros acc H; simpl in H; [discriminate|].
    destruct (ParseFlag g acc) as [acc'|e'] eqn:Eg.
    + destruct (IH acc' H) as [f [a [Hin Hf]]].
      exists f, a; split; [now right|exact Hf].
    + inversion H; subst; exists g, acc; split; [now left|exact Eg].
Qed.

(** The daemon is asked with the only positional argument as the name to
    match (none when there is no argument), the [--all] flag and the parsed
    filters; when it answers with an error, [CmdImages] returns that error
    unchanged and writes nothing, not even the header. *)
Theorem listing_fetch_error (Args : Type) (NewArgs : Args)
    (ParseFlag : string -> Args -> result Args)
    (ImageList : ImageListOptions Args -> result (list Image))
    (quiet all noTrunc showDigests : bool) (flFilter args : list string)
    (filterArgs : Args) (e : error) (s : state) :
  parse_filters Args ParseFlag flFilter NewArgs = Ok filterArgs ->
  ImageList (mkImageListOptions Args
               (match args with [a] => a | _ => "" end) all filterArgs)
    = Err e ->
  CmdImages_args Args NewArgs ParseFlag ImageList ParseNamed HumanDuration
    HumanSize Now quiet all noTrunc showDigests flFilter args s = (Err e, s).
Proof.
  intros Hp Hl; unfold CmdImages_args; rewrite Hp.
  replace (if Nat.eqb (length args) 1 then nth 0 args "" else "")
    with (match args with [a] => a | _ => "" end)
    by (destruct args as [|a [|b l]]; reflexivity).
  now rewrite Hl.
Qed.

(** An empty listing writes the header alone (nothing in quiet mode), and it
    reaches the stream. *)
Theorem empty_listing (quiet noTrunc showDigests : bool) (st : store) :
  CmdImages ParseNamed HumanDuration HumanSize Now quiet noTrunc showDigests
    (Ok []) (init st)
  = (Ok tt, mkState st (mkWriter [] (if quiet then [] else [header showDigests]))).
Proof.
  unfold init; rewrite CmdImages_spec; simpl.
  destruct quiet; unfold writes, Write, Flush; simpl;
    [reflexivity|now rewrite header_tabbed].
Qed.

(** A record with neither tags nor digests writes no row and is thus left
    out of the listing. *)
Theorem record_without_refs_omitted (quiet noTrunc showDigests : bool)
    (image : Image) (st : store) (w : writer) :
  slice_wf st (RepoTags image) ->
  slen (RepoTags image) = 0 -> slen (RepoDigests image) = 0 ->
  fst (each_image ParseNamed HumanDuration HumanSize Now quiet noTrunc
         showDigests image (mkState st w)) = Ok tt
  /\ tw (snd (each_image ParseNamed HumanDuration HumanSize Now quiet noTrunc
                showDigests image (mkState st w))) = w.
Proof.
  intros W Ht Hd.
  rewrite each_image_spec.
  pose proof (refs_combined st image W) as Hr.
  unfold elems in Hr; rewrite Ht, Hd in Hr; simpl in Hr.
  destruct (is_dangling _ _ _), (combined st image) as [st1 refs];
    simpl in Hr; subst refs; split; reflexivity.
Qed.

(** Without the quiet flag, a listing that succeeds ends with an empty
    tabwriter buffer and the stream holding the header followed by every
    row: the single [w.Flush()] at the end delivers the whole table. *)
Theorem table_flushed_on_success (noTrunc showDigests : bool)
    (images : list Image) (st : store) :
  fst (CmdImages ParseNamed HumanDuration HumanSize Now false noTrunc
         showDigests (Ok images) (init st)) = Ok tt ->
  tw (snd (CmdImages ParseNamed HumanDuration HumanSize Now false noTrunc
             showDigests (Ok images) (init st)))
  = mkWriter [] (header showDigests
                 :: snd (list_spec ParseNamed HumanDuration HumanSize Now
                           false noTrunc showDigests images st)).
Proof.
  unfold init; rewrite CmdImages_spec.
  pose proof (list_spec_lines ParseNamed HumanDuration HumanSize Now false
                noTrunc showDigests images st) as Hl.
  destruct (list_spec _ _ _ _ _ _ _ images st) as [[r st'] ls]; simpl in *.
  intro Hr; subst r; simpl.
  assert (Ho : out (writes (mkWriter [] []) (header showDigests :: ls)) = []).
  { apply (writes_tabbed_out (mkWriter [] [])).
    constructor; [apply header_tabbed|].
    eapply Forall_impl; [|exact Hl].
    intros l [image [t [_ ->]]]; apply row_tabbed. }
  pose proof (written_writes (mkWriter [] []) (header showDigests :: ls)) as Hw.
  change (Flush (writes (mkWriter [] []) (header showDigests :: ls))
          = mkWriter [] (header showDigests :: ls)).
  destruct (writes (mkWriter [] []) (header showDigests :: ls)) as [b o].
  unfold written in Hw; simpl in *; subst o; simpl in Hw; now subst b.
Qed.

(** [each_ref] stops at the first reference that does not parse: the rows of
    the references before it are written, the error is returned, and no row
    is written for it or for the references after it. *)
Theorem each_ref_stops_at_error (quiet showDigests : bool) (id : string)
    (image : Image) (pre post : list string) (x : string) (ts : list triple)
    (e : error) (st : store) (w : writer) :
  Forall2 (fun y t => process_ref ParseNamed y = Ok t) pre ts ->
  process_ref ParseNamed x = Err e ->
  each_ref ParseNamed HumanDuration HumanSize Now quiet showDigests id image
    (pre ++ x :: post) (mkState st w)
  = (Err e, mkState st (writes w (map (fun t => row HumanDuration HumanSize
                                          Now quiet showDigests id t image) ts))).
Proof.
  intros Hpre Hx; rewrite each_ref_scan.
  assert (Hs : scan ParseNamed (pre ++ x :: post) = (ts, Err e)).
  { induction Hpre as [|y t pre' ts' Hy _ IH]; simpl; [now rewrite Hx|].
    now rewrite Hy, IH. }
  now rewrite Hs.
Qed.

(** With tab-free fields, a row has six tab-separated cells with
    [--digests] and five without, as many as the header above it. *)
Theorem row_cells_match_header (id repo tag digest : string) (image : Image) :
  has_tab id = false -> has_tab repo = false -> has_tab tag = false ->
  has_tab digest = false ->
  has_tab (HumanDuration (Now - Created image)) = false ->
  has_tab (HumanSize (Size image)) = false ->
  count_tabs (row HumanDuration HumanSize Now false true id
                (repo, tag, digest) image) = count_tabs (header true)
  /\ count_tabs (header true) = 5
  /\ count_tabs (row HumanDuration HumanSize Now false false id
                   (repo, tag, digest) image) = count_tabs (header false)
  /\ count_tabs (header false) = 4.
Proof.
  intros Hi Hr Ht Hd Ha Hz.
  assert (Happ : forall a b, count_tabs (a ++ b) = count_tabs a + count_tabs b).
  { induction a as [|c a IH]; intro b; simpl; [reflexivity|now rewrite IH, Nat.add_assoc]. }
  assert (H0 : forall u, has_tab u = false -> count_tabs u = 0).
  { induction u as [|c u IH]; simpl; [reflexivity|].
    intro H; apply orb_false_iff in H as [Hc Hu].
    now rewrite Hc, IH. }
  unfold row; simpl negb; cbv iota.
  rewrite !Happ, (H0 id Hi), (H0 repo Hr), (H0 tag Ht), (H0 digest Hd),
    (H0 _ Ha), (H0 _ Hz).
  repeat split; reflexivity.
Qed.

(** When the slices of the records are well formed and in distinct arrays
    and every reference reconciles, the listing succeeds and writes, after
    the header, the rows of each record in the order of the records, each
    record reconciled as if it were alone: extending one record's tag slice
    in place does not affect the rows of the others. *)
Theorem listing_rows_by_record (quiet noTrunc showDigests : bool)
    (images : list Image) (st : store) (tss : list (list triple)) :
  Forall (slice_wf st) (all_slices images) ->
  NoDup (map sarr (filter (fun s => negb (Nat.eqb (scap s) 0))
                          (all_slices images))) ->
  reconcile_all ParseNamed st images = Ok tss ->
  fst (CmdImages ParseNamed HumanDuration HumanSize Now quiet noTrunc
         showDigests (Ok images) (init st)) = Ok tt
  /\ written (tw (snd (CmdImages ParseNamed HumanDuration HumanSize Now quiet
                         noTrunc showDigests (Ok images) (init st))))
     = ((if quiet then [] else [header showDigests])
        ++ concat (map (fun p => map (fun t => row HumanDuration HumanSize Now
                                         quiet showDigests
                                         (display_id noTrunc (ID (fst p)))
                                         t (fst p))
                                      (snd p))
                       (combine images tss)))%list.
Proof.
  intros Hwf Hnd Hrec.
  destruct (list_spec_indep ParseNamed HumanDuration HumanSize Now quiet noTrunc showDigests images st st
              (all_slices images) tss Hwf Hwf) as [H1 H2]; auto.
  - apply Forall_forall; reflexivity.
  - intros image Hi; split; apply (in_all_slices images image); auto.
  - apply nodup_slices_disjoint; exact Hnd.
  - unfold init; rewrite CmdImages_spec.
    destruct (list_spec _ _ _ _ _ _ _ images st) as [[r st'] ls];
      simpl in *; subst r; rewrite <- H2.
    split; [reflexivity|].
    destruct quiet; simpl;
      rewrite ?written_Flush, written_writes, ?written_Write; reflexivity.
Qed.

End Extras.

Lemma parse_filters_first_error_witness :
  parse_filters (list (string * string)) sample_parse_flag
    (["dangling=true"] ++ "label" :: ["before=foo"]) []
  = Err "bad format of filter (expected name=value)".
Proof.
  apply (parse_filters_first_error _ sample_parse_flag ["dangling=true"]
           ["before=foo"] "label" [] [("dangling", "true")]); reflexivity.
Defined.

Lemma filter_error_before_listing_witness :
  CmdImages_args (list (string * string)) [] sample_parse_flag
    sample_image_list sample_parse sample_duration sample_size 3600
    false false false false ["dangling=true"; "label"] [] (init st0)
  = (Err "bad format of filter (expected name=value)", init st0)
  /\ exists f a, In f ["dangling=true"; "label"]
                 /\ sample_parse_flag f a
                    = Err "bad format of filter (expected name=value)".
Proof. apply filter_error_before_listing; reflexivity. Defined.

Lemma listing_fetch_error_witness :
  CmdImages_args (list (string * string)) [] sample_parse_flag
    (fun _ => Err "Cannot connect to the Docker daemon")
    sample_parse sample_duration sample_size 3600
    false false false false ["dangling=true"] ["library/foo"] (init st0)
  = (Err "Cannot connect to the Docker daemon", init st0).
Proof.
  apply (listing_fetch_error sample_parse sample_duration sample_size 3600 _ []
           sample_parse_flag _ false false false false ["dangling=true"]
           ["library/foo"] [("dangling", "true")]); reflexivity.
Defined.

Lemma record_without_refs_omitted_witness :
  fst (each_image sample_parse sample_duration sample_size 3600 false false
         true (mkImage "sha256:bbbb" Slice.empty Slice.empty 0 0)
         (init st0)) = Ok tt
  /\ tw (snd (each_image sample_parse sample_duration sample_size 3600 false
                false true (mkImage "sha256:bbbb" Slice.empty Slice.empty 0 0)
                (init st0))) = tw (init st0).
Proof.
  apply record_without_refs_omitted;
    [unfold slice_wf; simpl; lia | reflexivity | reflexivity].
Defined.

Lemma table_flushed_on_success_witness :
  tw (snd (CmdImages sample_parse sample_duration sample_size 3600 false false
             true (Ok [dangling_img; foo_img]) (init st0)))
  = mkWriter [] (header true
                 :: snd (list_spec sample_parse sample_duration sample_size
                           3600 false false true [dangling_img; foo_img] st0)).
Proof. apply table_flushed_on_success; vm_compute; reflexivity. Defined.

Lemma each_ref_stops_at_error_witness :
  each_ref sample_parse sample_duration sample_size 3600 false false
    "sha256:fedcb" foo_img (["library/foo:latest"] ++ ":latest" :: ["x:y"])
    (init st0)
  = (Err "invalid reference format",
     mkState st0 (writes (mkWriter [] [])
                   (map (fun t => row sample_duration sample_size 3600 false
                                    false "sha256:fedcb" t foo_img)
                        [("library/foo", "latest", none)]))).
Proof.
  apply each_ref_stops_at_error; [constructor; [reflexivity|constructor]
                                 | reflexivity].
Defined.

Lemma row_cells_match_header_witness :
  count_tabs (row sample_duration sample_size 3600 false true "sha256:fedcb"
                ("library/foo", "latest", none) foo_img)
    = count_tabs (header true)
  /\ count_tabs (header true) = 5
  /\ count_tabs (row sample_duration sample_size 3600 false false
                   "sha256:fedcb" ("library/foo", "latest", none) foo_img)
     = count_tabs (header false)
  /\ count_tabs (header false) = 4.
Proof. apply row_cells_match_header; reflexivity. Defined.

Lemma listing_rows_by_record_witness :
  fst (CmdImages sample_parse sample_duration sample_size 3600 false false
         false (Ok [dangling_img; foo_img]) (init st0)) = Ok tt
  /\ written (tw (snd (CmdImages sample_parse sample_duration sample_size 3600
                         false false false (Ok [dangling_img; foo_img])
                         (init st0))))
     = ([header false]
        ++ concat (map (fun p => map (fun t => row sample_duration sample_size
                                         3600 false false
                                         (display_id false (ID (fst p)))
                                         t (fst p))
                                      (snd p))
                       (combine [dangling_img; foo_img]
                          [[(none, none, none)];
                           [("library/foo", "latest", none);
                            ("library/foo", none, sample_digest)]])))%list.
Proof.
  apply (listing_rows_by_record sample_parse sample_duration sample_size 3600
           false false false).
  - repeat constructor; simpl; lia.
  - vm_compute; repeat constructor; simpl; intuition discriminate.
  - vm_compute; reflexivity.
Defined.
